(** * prefect.utilities.debug

    A shallow embedding of [src/prefect/utilities/debug.py] and the
    properties of its three utilities:

    - [is_serializable]: pickle a value, write a loader script, run it in
      a fresh interpreter, remove both temporary files;
    - [raise_on_exception]: a context manager around [prefect.context];
    - [make_return_failed_handler]: a state handler closing over a shared
      set of tasks.

    Python statements are embedded as programs over the external calls
    the module makes ([tempfile.mkstemp], [os.close], [open],
    [cloudpickle.dump], [subprocess.check_output], [os.unlink]), with
    combinators for [try]/[except], [try]/[finally], [with] and [return];
    the calls are interpreted over an explicit world (temporary
    directory, descriptor table, object heap).  The encoder and the
    shell that runs the child are parameters.  One call is run to its
    end by [run]; several calls are run as threads that take turns at
    their external calls by [run_threads]. *)

From stdpp Require Import base gmap sets list strings.
From Stdlib Require Import Ascii String ZArith.

Local Open Scope Z_scope.
Local Open Scope string_scope.

#[local] Set Warnings "-clear-no-such-hyp".

(** ** Python values shared by the three utilities *)

Definition path := string.
Definition fd := nat.
Definition loc := positive.

(** Exceptions, split the way the [except] clauses of the module tell
    them apart: [subprocess.CalledProcessError], any other subclass of
    [Exception], and what derives from [BaseException] only
    ([KeyboardInterrupt], [SystemExit]). *)
Inductive exn : Type :=
| CalledProcessError (returncode : Z) (cmd : string) (output : string)
| Exception (cls : string) (msg : string)
| BaseException (cls : string).

Global Instance exn_eq_dec : EqDecision exn.
Proof. solve_decision. Defined.

(** [isinstance(exc, subprocess.CalledProcessError)] *)
Definition is_CalledProcessError (e : exn) : bool :=
  match e with CalledProcessError _ _ _ => true | _ => false end.

(** [isinstance(exc, Exception)] *)
Definition is_Exception (e : exn) : bool :=
  match e with BaseException _ => false | _ => true end.

(** The [output] attribute, which only [CalledProcessError] has. *)
Definition output_of (e : exn) : option string :=
  match e with CalledProcessError _ _ out => Some out | _ => None end.

(** How a block of statements completes: it falls through with a value,
    executes [return], or raises. *)
Inductive completion (A : Type) : Type :=
| Normal (a : A)
| Return (b : bool)
| Raise (e : exn).
Global Arguments Normal {A} a.
Global Arguments Return {A} b.
Global Arguments Raise {A} e.

(** ** External calls *)

Inductive Op : Type → Type :=
| Mkstemp : Op (fd * path)                  (* tempfile.mkstemp() *)
| OsClose (d : fd) : Op unit                (* os.close(d) *)
| Open (p : path) : Op fd                   (* open(p, "w") / open(p, "wb") *)
| FileClose (f : fd) : Op unit              (* f.__exit__ of a file object *)
| Dump (obj : loc) (f : fd) : Op unit       (* cloudpickle.dump(obj, f) *)
| Write (f : fd) (s : string) : Op unit     (* f.write(s) *)
| CheckOutput (cmd : string) : Op string    (* subprocess.check_output(cmd, shell=True, stderr=STDOUT) *)
| Unlink (p : path) : Op unit.              (* os.unlink(p) *)

(** Programs: a result, or an external call and what to do with its
    answer. *)
Inductive prog (R : Type) : Type :=
| Done (r : R)
| Call {X : Type} (op : Op X) (k : exn + X → prog R).
Global Arguments Done {R} r.
Global Arguments Call {R X} op k.

Definition py (A : Type) : Type := prog (completion A).

Fixpoint py_bind {A B : Type} (f : A → py B) (m : py A) : py B :=
  match m with
  | Done (Normal a) => f a
  | Done (Return b) => Done (Return b)
  | Done (Raise e) => Done (Raise e)
  | Call op k => Call op (λ r, py_bind f (k r))
  end.

Global Instance py_mret : MRet py := λ A a, Done (Normal a).
Global Instance py_mbind : MBind py := λ A B f m, py_bind f m.

Definition call {X : Type} (op : Op X) : py X :=
  Call op (λ r, match r with inl e => Done (Raise e) | inr x => Done (Normal x) end).

Definition raise {A : Type} (e : exn) : py A := Done (Raise e).
Definition return_ {A : Type} (b : bool) : py A := Done (Return b).

(** [try: body / except <cls> as exc: handler exc] *)
Fixpoint try_except {A : Type} (body : py A) (cls : exn → bool) (handler : exn → py A) : py A :=
  match body with
  | Done (Raise e) => if cls e then handler e else Done (Raise e)
  | Done c => Done c
  | Call op k => Call op (λ r, try_except (k r) cls handler)
  end.

(** [try: body / finally: fin].  The [finally] block runs however the
    body completes; the body's completion is resumed afterwards unless
    the [finally] block itself returns or raises. *)
Fixpoint try_finally {A : Type} (body : py A) (fin : py unit) : py A :=
  match body with
  | Done c =>
      py_bind (λ _, Done c) fin
  | Call op k => Call op (λ r, try_finally (k r) fin)
  end.

(** [with open(p, mode) as f: body f] *)
Definition with_open {A : Type} (p : path) (body : fd → py A) : py A :=
  f ← call (Open p);
  try_finally (body f) (call (FileClose f)).

(** [template.format(arg)] for a template with one [{}] field. *)
Fixpoint format (template arg : string) : string :=
  match template with
  | String "{"%char (String "}"%char rest) => arg +:+ rest
  | String c rest => String c (format rest arg)
  | EmptyString => EmptyString
  end.

(** The dedented loader script of [is_serializable]. *)
Definition template : string :=
"
import cloudpickle

with open('{}', 'rb') as z76123:
    res = cloudpickle.load(z76123)
".

(** ** is_serializable *)

Definition is_serializable (obj : loc) (raise_on_error : bool) : py unit :=
  '(bd, binary_file) ← call Mkstemp;
  '(sd, script_file) ← call Mkstemp;
  call (OsClose bd);;
  call (OsClose sd);;
  try_finally
    (try_except
       (with_open binary_file (λ bf, call (Dump obj bf));;
        with_open script_file (λ sf, call (Write sf (format template binary_file)));;
        try_except
          (call (CheckOutput ("python " +:+ script_file));; mret ())
          is_CalledProcessError
          (λ exc, if raise_on_error then raise exc else return_ false))
       is_Exception
       (λ exc, if raise_on_error then raise exc else return_ false))
    (call (Unlink binary_file);;
     call (Unlink script_file));;
  return_ true.

(** ** The world the calls act on *)

(** What the call leaves behind for an observer: child processes that
    ran to completion, and exceptions raised by external calls. *)
Inductive event : Type :=
| Exited (cmd : string) (returncode : Z) (output : string)
| Raised (e : exn).

Section World.

(** Candidate values are opaque. *)
Context {Value : Type}.

(** The world: what the external calls read and change.  The temporary
    directory and the descriptor table behave as the file system does;
    which names [tempfile] tries and which calls the platform fails
    (no space left, too many open files, a file that is gone, an
    interrupt) is given in advance, so that a run is a function of the
    world it starts in. *)
Record World : Type := mkWorld {
  fs : gmap path string;          (* files and their contents *)
  fds : gmap fd path;             (* open descriptors *)
  heap : gmap loc Value;          (* Python objects *)
  rng : list path;                (* names tempfile will try, in order *)
  faults : list (option exn);     (* failures the platform injects into fallible calls, in order *)
  log : list event                (* events so far, latest first *)
}.

Definition set_fs (f : gmap path string → gmap path string) (w : World) : World :=
  mkWorld (f (fs w)) (fds w) (heap w) (rng w) (faults w) (log w).
Definition set_fds (f : gmap fd path → gmap fd path) (w : World) : World :=
  mkWorld (fs w) (f (fds w)) (heap w) (rng w) (faults w) (log w).
Definition set_heap (h : gmap loc Value) (w : World) : World :=
  mkWorld (fs w) (fds w) h (rng w) (faults w) (log w).
Definition set_rng (r : list path) (w : World) : World :=
  mkWorld (fs w) (fds w) (heap w) r (faults w) (log w).
Definition set_faults (l : list (option exn)) (w : World) : World :=
  mkWorld (fs w) (fds w) (heap w) (rng w) l (log w).
Definition emit (ev : event) (w : World) : World :=
  mkWorld (fs w) (fds w) (heap w) (rng w) (faults w) (ev :: log w).

(** [cloudpickle.dumps] on the object at a location: the heap it leaves
    (pickling runs the object's own reduction hooks) and the bytes, or the
    exception the encoder raised. *)
Variable cloudpickle_dumps : gmap loc Value → loc → gmap loc Value * (exn + string).

(** [sh -c cmd] over the files present: exit code and combined
    standard output and standard error of a child that exits
    ([check_output] is called without a timeout: there is no result to
    speak of when the child does not exit).  The child reads the files.
    What else it does to the directory is seen by the call as a failure
    of one of its own platform calls - a child that removes the payload
    file makes [os.unlink] fail - and such failures are what [faults]
    gives. *)
Variable shell : gmap path string → string → Z * string.

Definition fail {X : Type} (e : exn) (w : World) : (exn + X) * World :=
  (inl e, emit (Raised e) w).

(** The platform decides whether the next fallible call fails; when the
    list is used up no more failures are injected. *)
Definition pending (w : World) : option exn := mjoin (head (faults w)).
Definition consumed (w : World) : World := set_faults (tail (faults w)) w.
Definition next_fault (w : World) : option exn * World := (pending w, consumed w).

(** What the platform injects into the [n]-th fallible call made from
    [w] on, counting from 0. *)
Definition fault_at (w : World) (n : nat) : option exn := mjoin (faults w !! n).

(** The first candidate that names no existing file ([O_EXCL]). *)
Fixpoint draw_name (names : list path) (files : gmap path string) : option path * list path :=
  match names with
  | [] => (None, [])
  | p :: rest =>
      match files !! p with
      | None => (Some p, rest)
      | Some _ => draw_name rest files
      end
  end.

Definition new_fd (w : World) : fd := fresh (dom (fds w)).

(** What [mkstemp] raises when every candidate exists. *)
Definition no_usable_name : exn :=
  Exception "FileExistsError" "No usable temporary file name found".

(** [tempfile.mkstemp()]: an empty file under a name that did not
    exist, and a descriptor open on it. *)
Definition mkstemp (w : World) : (exn + fd * path) * World :=
  match next_fault w with
  | (Some e, w1) => fail e w1
  | (None, w1) =>
      match draw_name (rng w1) (fs w1) with
      | (None, rest) => fail no_usable_name (set_rng rest w1)
      | (Some p, rest) =>
          let d := new_fd w1 in
          (inr (d, p),
           set_fds (insert d p) (set_fs (insert p "") (set_rng rest w1)))
      end
  end.

(** [os.close(d)] and the closing of a file object: they fail only on
    a descriptor that is not open. *)
Definition close (d : fd) (w : World) : (exn + unit) * World :=
  match fds w !! d with
  | Some _ => (inr (), set_fds (delete d) w)
  | None => fail (Exception "OSError" "Bad file descriptor") w
  end.

(** [open(p, "w")]: create or truncate. *)
Definition open (p : path) (w : World) : (exn + fd) * World :=
  match next_fault w with
  | (Some e, w1) => fail e w1
  | (None, w1) =>
      let d := new_fd w1 in
      (inr d, set_fds (insert d p) (set_fs (insert p "") w1))
  end.

(** [f.write(s)]: the text goes to the end of the file [f] is open on.
    (The buffer of the file object is left out: every file is closed
    before anything reads it.) *)
Definition write (f : fd) (s : string) (w : World) : (exn + unit) * World :=
  match next_fault w with
  | (Some e, w1) => fail e w1
  | (None, w1) =>
      match fds w1 !! f with
      | Some p => (inr (), set_fs (alter (λ old, old +:+ s) p) w1)
      | None => fail (Exception "ValueError" "I/O operation on closed file") w1
      end
  end.

(** [cloudpickle.dump(obj, f)]: encode, then write. *)
Definition dump (obj : loc) (f : fd) (w : World) : (exn + unit) * World :=
  let '(h, r) := cloudpickle_dumps (heap w) obj in
  match r with
  | inl e => fail e (set_heap h w)
  | inr bytes => write f bytes (set_heap h w)
  end.

(** [subprocess.check_output]: the output when the child exits with
    code zero, [CalledProcessError(returncode, cmd, output)] otherwise. *)
Definition check_output (cmd : string) (w : World) : (exn + string) * World :=
  match next_fault w with
  | (Some e, w1) => fail e w1
  | (None, w1) =>
      let '(rc, out) := shell (fs w1) cmd in
      let w2 := emit (Exited cmd rc out) w1 in
      if decide (rc = 0) then (inr out, w2)
      else fail (CalledProcessError rc cmd out) w2
  end.

(** [os.unlink(p)]: it fails when the platform makes it fail, and on a
    name that is not there. *)
Definition unlink (p : path) (w : World) : (exn + unit) * World :=
  match next_fault w with
  | (Some e, w1) => fail e w1
  | (None, w1) =>
      match fs w1 !! p with
      | Some _ => (inr (), set_fs (delete p) w1)
      | None => fail (Exception "FileNotFoundError" p) w1
      end
  end.

Definition handle {X : Type} (op : Op X) : World → (exn + X) * World :=
  match op in Op X return World → (exn + X) * World with
  | Mkstemp => mkstemp
  | OsClose d => close d
  | Open p => open p
  | FileClose f => close f
  | Dump obj f => dump obj f
  | Write f s => write f s
  | CheckOutput cmd => check_output cmd
  | Unlink p => unlink p
  end.

(** Running a program to its end. *)
Fixpoint run {R : Type} (m : prog R) (w : World) : R * World :=
  match m with
  | Done r => (r, w)
  | Call op k => let '(r, w1) := handle op w in run (k r) w1
  end.

(** *** Specification vocabulary for [is_serializable] *)

(** Weakest precondition of a program for a postcondition on its result
    and final world. *)
Definition wp {R : Type} (m : prog R) (Q : R → World → Prop) (w : World) : Prop :=
  Q (run m w).1 (run m w).2.

Definition answer {X : Type} (r : exn + X) : completion X :=
  match r with inl e => Raise e | inr x => Normal x end.

(** Completion of [try: .. finally: ..] from the completions of its two
    blocks. *)
Definition resume {A B : Type} (c : completion A) (c2 : completion B) : completion A :=
  match c2 with Normal _ => c | Return b => Return b | Raise e => Raise e end.

(** Both handlers of [is_serializable] have the same body. *)
Definition verdict (raise_on_error : bool) (exc : exn) : completion unit :=
  if raise_on_error then Raise exc else Return false.

(** The blocks of [is_serializable], named so that the program left to
    run at any point of the call can be written down. *)

(** The body of both [except] clauses. *)
Definition on_error (raise_on_error : bool) (exc : exn) : py unit :=
  if raise_on_error then raise exc else return_ false.

(** Lines 48-49: writing the script. *)
Definition script_block (binary_file script_file : path) : py unit :=
  with_open script_file (λ sf, call (Write sf (format template binary_file))).

(** Lines 50-57: the inner [try] statement. *)
Definition spawn_block (raise_on_error : bool) (script_file : path) : py unit :=
  try_except
    (call (CheckOutput ("python " +:+ script_file));; mret ())
    is_CalledProcessError (on_error raise_on_error).

(** Lines 62-64: the [finally] clause. *)
Definition cleanup (binary_file script_file : path) : py unit :=
  call (Unlink binary_file);; call (Unlink script_file).

(** Lines 45-65 around what is left of the body of the outer [try]. *)
Definition protect (raise_on_error : bool) (binary_file script_file : path)
    (body : py unit) : py unit :=
  try_finally (try_except body is_Exception (on_error raise_on_error))
    (cleanup binary_file script_file);;
  return_ true.

(** Lines 46-61: the outer [try] block with its [except] clause. *)
Definition guarded (obj : loc) (raise_on_error : bool) (binary_file script_file : path) : py unit :=
  try_except
    (with_open binary_file (λ bf, call (Dump obj bf));;
     script_block binary_file script_file;;
     spawn_block raise_on_error script_file)
    is_Exception (on_error raise_on_error).

(** Lines 43-65: what is left to run once both files are allocated. *)
Definition after_alloc (obj : loc) (raise_on_error : bool) (bd : fd) (binary_file : path)
    (sd : fd) (script_file : path) : py unit :=
  call (OsClose bd);;
  call (OsClose sd);;
  try_finally (guarded obj raise_on_error binary_file script_file)
    (cleanup binary_file script_file);;
  return_ true.

(** Falling out of the [try] statement reaches [return True]. *)
Definition final (c : completion unit) : completion unit :=
  match c with Normal _ => Return true | _ => c end.

(** What the outer handler makes of an exception. *)
Definition caught (raise_on_error : bool) (e : exn) : completion unit :=
  if is_Exception e then verdict raise_on_error e else Raise e.

(** How the [try] block of lines 45-61 ends, read off what its calls
    find.  The block makes five fallible platform calls - [open] and
    [write] for the payload, [open] and [write] for the script,
    [check_output] - and [fault j] is what the platform injects into
    the [j]-th of them.  The block ends with the exit of the child, with
    an exception of the encoder, or with the first platform call that
    fails; [new] are the events it adds to the log (latest first) and
    [made] is the number of fallible platform calls it has made. *)
Inductive outcome (obj : loc) (flag : bool) (p q : path) (files : gmap path string)
    (h0 : gmap loc Value) (fault : nat → option exn)
    (c : completion unit) (new : list event) (made : nat) : Prop :=
| child_ok h bytes out :
    (∀ j, (j < 5)%nat → fault j = None) →
    cloudpickle_dumps h0 obj = (h, inr bytes) →
    shell (<[q := format template p]> (<[p := bytes]> files)) ("python " +:+ q) = (0, out) →
    c = Normal () →
    new = [Exited ("python " +:+ q) 0 out] →
    made = 5%nat →
    outcome obj flag p q files h0 fault c new made
| child_failed h bytes rc out :
    (∀ j, (j < 5)%nat → fault j = None) →
    cloudpickle_dumps h0 obj = (h, inr bytes) →
    shell (<[q := format template p]> (<[p := bytes]> files)) ("python " +:+ q) = (rc, out) →
    rc ≠ 0 →
    c = verdict flag (CalledProcessError rc ("python " +:+ q) out) →
    new = [Raised (CalledProcessError rc ("python " +:+ q) out);
           Exited ("python " +:+ q) rc out] →
    made = 5%nat →
    outcome obj flag p q files h0 fault c new made
| encoder_failed h e :
    fault 0%nat = None →
    cloudpickle_dumps h0 obj = (h, inl e) →
    c = caught flag e →
    new = [Raised e] →
    made = 1%nat →
    outcome obj flag p q files h0 fault c new made
| platform_failed n e :
    (n < 5)%nat →
    (∀ j, (j < n)%nat → fault j = None) →
    fault n = Some e →
    (n ≠ 0%nat → ∃ h bytes, cloudpickle_dumps h0 obj = (h, inr bytes)) →
    c = caught flag e →
    new = [Raised e] →
    made = S n →
    outcome obj flag p q files h0 fault c new made.

Definition guarded_post (obj : loc) (flag : bool) (p q : path) (w0 : World)
    (c : completion unit) (w1 : World) : Prop :=
  (∀ x, x ≠ p → x ≠ q → fs w1 !! x = fs w0 !! x) ∧
  is_Some (fs w1 !! p) ∧ is_Some (fs w1 !! q) ∧
  fds w1 = fds w0 ∧
  (heap w1 = heap w0 ∨ heap w1 = (cloudpickle_dumps (heap w0) obj).1) ∧
  ∃ new made,
    log w1 = (new ++ log w0)%list ∧
    (∀ n, faults w1 !! n = faults w0 !! (n + made)%nat) ∧
    outcome obj flag p q (fs w0) (heap w0) (fault_at w0) c new made.

(** A call in which both files were allocated, from its first world [w]
    to its result [c] and its last world [w']: the [try] block ends in one
    of the ways above, the first two fallible calls having been the two
    [mkstemp] calls, and the [finally] clause makes the next two: when
    neither fails the result is that of the block and the directory is
    what it was; when [os.unlink(binary_file)] fails its exception is the
    result and neither file is removed; when [os.unlink(script_file)]
    fails its exception is the result and the script file is left. *)
Definition finished (obj : loc) (flag : bool) (p q : path) (w : World)
    (c : completion unit) (w' : World) : Prop :=
  fds w' = fds w ∧
  (heap w' = heap w ∨ heap w' = (cloudpickle_dumps (heap w) obj).1) ∧
  (∀ x, x ≠ p → x ≠ q → fs w' !! x = fs w !! x) ∧
  ∃ cg new made,
    outcome obj flag p q (fs w) (heap w) (λ j, fault_at w (2 + j)) cg new made ∧
    match fault_at w (2 + made), fault_at w (3 + made) with
    | None, None =>
        c = final cg ∧ fs w' = fs w ∧ log w' = (new ++ log w)%list
    | Some e, _ =>
        c = Raise e ∧ is_Some (fs w' !! p) ∧ is_Some (fs w' !! q) ∧
        log w' = (Raised e :: new ++ log w)%list
    | None, Some e =>
        c = Raise e ∧ fs w' !! p = None ∧ is_Some (fs w' !! q) ∧
        log w' = (Raised e :: new ++ log w)%list
    end.

(** A call with payload file [p] and script file [q] in which nothing
    fails but, possibly, the check itself: the platform fails none of the
    nine fallible calls - two [mkstemp], [open] and [write] for either
    file, [check_output], two [os.unlink] -, the encoder gives the bytes
    of the object, and the child, started in the directory that holds
    these bytes as payload and the loader as script, exits with [rc]
    having printed [out]. *)
Definition child_exits (obj : loc) (p q : path) (w : World) (rc : Z) (out : string) : Prop :=
  (∀ n, (n < 9)%nat → fault_at w n = None) ∧
  ∃ h bytes, cloudpickle_dumps (heap w) obj = (h, inr bytes) ∧
    shell (<[q := format template p]> (<[p := bytes]> (fs w))) ("python " +:+ q) = (rc, out).

(** A platform call of the [try] block fails: the [n]-th fallible call
    of the run, for [n] from 2 ([open] of the payload file) to 6
    ([check_output]), is the first that the platform fails, with [e];
    the encoder has given bytes when the failing call comes after it;
    and the platform then fails neither call of the [finally] clause. *)
Definition try_block_fails (obj : loc) (w : World) (n : nat) (e : exn) : Prop :=
  (2 ≤ n ≤ 6)%nat ∧
  (∀ j, (j < n)%nat → fault_at w j = None) ∧ fault_at w n = Some e ∧
  (3 ≤ n → ∃ h bytes, cloudpickle_dumps (heap w) obj = (h, inr bytes))%nat ∧
  fault_at w (n + 1) = None ∧ fault_at w (n + 2) = None.

(** The encoder fails with [e], and the platform fails none of the
    five fallible calls of such a run: two [mkstemp], [open] for the
    payload file, two [os.unlink]. *)
Definition encoder_fails (obj : loc) (w : World) (e : exn) : Prop :=
  (∀ n, (n < 5)%nat → fault_at w n = None) ∧
  ∃ h, cloudpickle_dumps (heap w) obj = (h, inl e).

(** The world in which the [finally] clause of a call starts, and how
    the [try] statement has completed there: both files are allocated,
    both descriptors closed, the [try] block and its handlers have run. *)
Definition try_block_end (obj : loc) (raise_on_error : bool) (bd : fd) (binary_file : path)
    (sd : fd) (script_file : path) (w : World) : completion unit * World :=
  run (call (OsClose bd);; call (OsClose sd);;
       guarded obj raise_on_error binary_file script_file) w.

(** The events a call has added to the log. *)
Definition new_events (w w' : World) : list event :=
  take (List.length (log w') - List.length (log w)) (log w').

(** *** Properties the specification asks of a call *)

(** No file that was absent before the call is present after it. *)
Definition no_residual_files (w w' : World) : Prop :=
  ∀ p, fs w !! p = None → fs w' !! p = None.

Definition cleans_up (obj : loc) (raise_on_error : bool) (w : World) : Prop :=
  no_residual_files w (run (is_serializable obj raise_on_error) w).2.

(** The call is a predicate: it returns a boolean. *)
Definition returns_bool (obj : loc) (w : World) : Prop :=
  ∃ b, (run (is_serializable obj false) w).1 = Return b.

(** The result is the class of the exit code of the child. *)
Definition classifies (obj : loc) (w : World) : Prop :=
  let r := run (is_serializable obj false) w in
  ∀ cmd rc out, Exited cmd rc out ∈ new_events w r.2 → r.1 = Return (bool_decide (rc = 0)).

(** The candidate is after the call what it was before. *)
Definition leaves_candidate (obj : loc) (raise_on_error : bool) (w : World) : Prop :=
  heap (run (is_serializable obj raise_on_error) w).2 !! obj = heap w !! obj.

(** The raised error has an [output] attribute holding some text. *)
Definition informative (e : exn) : Prop :=
  ∃ out, output_of e = Some out ∧ out ≠ "".

Definition raises_informative (obj : loc) (w : World) : Prop :=
  ∃ e, (run (is_serializable obj true) w).1 = Raise e ∧ informative e.

(** *** Several calls at once *)

(** Threads interleave at the external calls: the scheduler picks a
    thread, and that thread performs its next call on the shared world.
    What a step does to the names of the temporary directory is its
    label. *)
Inductive label : Type :=
| Allocated (p : path)
| Released (p : path)
| Silent.

Global Instance label_eq_dec : EqDecision label.
Proof. solve_decision. Defined.

Definition label_of {X : Type} (op : Op X) : exn + X → label :=
  match op in Op X return exn + X → label with
  | Mkstemp => λ r, match r with inr (_, p) => Allocated p | inl _ => Silent end
  | Unlink p => λ r, match r with inr _ => Released p | inl _ => Silent end
  | _ => λ _, Silent
  end.

Definition step_prog {R : Type} (m : prog R) (w : World) : prog R * World * label :=
  match m with
  | Done r => (Done r, w, Silent)
  | Call op k => let '(r, w1) := handle op w in (k r, w1, label_of op r)
  end.

Record system : Type := mkSystem {
  threads : list (py unit);
  world : World;
  trace : list (nat * label)      (* who did what to which name, latest first *)
}.

Definition step_thread (i : nat) (s : system) : system :=
  match threads s !! i with
  | Some m =>
      let '(m', w', lab) := step_prog m (world s) in
      mkSystem (<[i := m']> (threads s)) w' ((i, lab) :: trace s)
  | None => s
  end.

Definition run_threads (schedule : list nat) (s : system) : system :=
  foldl (λ s i, step_thread i s) s schedule.

(** One thread per call [(obj, raise_on_error)]. *)
Definition spawn_all (calls : list (loc * bool)) (w : World) : system :=
  mkSystem ((λ c, is_serializable c.1 c.2) <$> calls) w [].

(** The names a thread holds after a trace: those it was given by
    [mkstemp] and has not unlinked since. *)
Fixpoint held (tr : list (nat * label)) (i : nat) : gset path :=
  match tr with
  | [] => ∅
  | (j, lab) :: rest =>
      if decide (i = j) then
        match lab with
        | Allocated p => held rest i ∪ {[ p ]}
        | Released p => held rest i ∖ {[ p ]}
        | Silent => held rest i
        end
      else held rest i
  end.

(** Every name handed out was, at that moment, held by no thread:
    neither by another one nor by the thread that received it. *)
Fixpoint collision_free (tr : list (nat * label)) : Prop :=
  match tr with
  | [] => True
  | (_, Allocated p) :: rest => (∀ j, p ∉ held rest j) ∧ collision_free rest
  | _ :: rest => collision_free rest
  end.

(** **** What a thread has done

    One external call as a thread made it: the call, the world it was
    made in and the answer it got. *)
Inductive record : Type :=
| Made {X : Type} (op : Op X) (before : World) (answer : exn + X).

(** The exception a recorded call raised, if it raised. *)
Definition raised (r : record) : option exn :=
  match r with
  | Made _ _ (inl e) => Some e
  | Made _ _ (inr _) => None
  end.

(** The calls that [is_serializable] makes outside its [try] block:
    lines 41 to 44 and the [finally] clause. *)
Definition outside_try (r : record) : bool :=
  match r with
  | Made op _ _ =>
      match op with
      | Mkstemp | OsClose _ | Unlink _ => true
      | _ => false
      end
  end.

(** The record of the step a thread takes in [w]. *)
Definition next_record (m : py unit) (w : World) : list record :=
  match m with
  | Done _ => []
  | Call op _ => [Made op w (handle op w).1]
  end.

(** What a step of thread [i] adds to the journal of thread [j]. *)
Definition step_record (i : nat) (s : system) (j : nat) : list record :=
  if decide (i = j)
  then match threads s !! j with
       | Some m => next_record m (world s)
       | None => []
       end
  else [].

(** The journal of thread [j]: the calls it makes, in order, when the
    schedule is run from [s]. *)
Fixpoint journal (schedule : list nat) (s : system) (j : nat) : list record :=
  match schedule with
  | [] => []
  | i :: rest => step_record i s j ++ journal rest (step_thread i s) j
  end.

(** The thread has encoded the object: one of its [cloudpickle.dump]
    calls succeeded, and [bytes] is what the encoder made of the object
    in the heap of that moment. *)
Definition encoded (J : list record) (obj : loc) (bytes : string) : Prop :=
  ∃ bf w h, Made (Dump obj bf) w (inr ()) ∈ J ∧
            cloudpickle_dumps (heap w) obj = (h, inr bytes).

(** An exception of the thread's own making inside the [try] block: one
    of its calls there raised it, because the platform made that call
    fail or because the encoder raised it for this object. *)
Definition origin (J : list record) (obj : loc) (e : exn) : Prop :=
  (∃ X (op : Op X) w, Made op w (inl e) ∈ J ∧ outside_try (Made op w (inl e)) = false ∧
                      pending w = Some e) ∨
  (∃ bf w h, Made (Dump obj bf) w (inl e) ∈ J ∧
             cloudpickle_dumps (heap w) obj = (h, inl e)).

(** An exception of the thread's own making outside the [try] block:
    one of its calls there raised it. *)
Definition escaped (J : list record) (e : exn) : Prop :=
  ∃ r, r ∈ J ∧ outside_try r = true ∧ raised r = Some e.

(** None of the thread's calls raised; none outside the [try] block
    did. *)
Definition no_raise (J : list record) : Prop := ∀ r, r ∈ J → raised r = None.

Definition contained (J : list record) : Prop :=
  ∀ r, r ∈ J → outside_try r = true → raised r = None.

(** Where the result of a call comes from, in its journal [J].  [True]
    comes from its own child: a [check_output] call of the thread, made
    in a directory where the payload file holds the bytes the thread's
    own [dump] call made of the object and the script file holds the
    loader of that payload file, on which the child exits with zero.  A
    [CalledProcessError] verdict comes from such a child that exits
    with another code.  Any other verdict of the handlers comes from a
    failure of one of the thread's own calls inside the [try] block, and
    an exception that escapes the handlers from one of its calls outside
    of it. *)
Inductive grounded (J : list record) (obj : loc) (flag : bool)
  : completion unit → Prop :=
| own_ok p q bytes w out :
    encoded J obj bytes →
    Made (CheckOutput ("python " +:+ q)) w (inr out) ∈ J →
    fs w !! p = Some bytes → fs w !! q = Some (format template p) →
    shell (fs w) ("python " +:+ q) = (0, out) →
    grounded J obj flag (Return true)
| own_failed p q bytes w rc out :
    encoded J obj bytes →
    Made (CheckOutput ("python " +:+ q)) w
      (inl (CalledProcessError rc ("python " +:+ q) out)) ∈ J →
    fs w !! p = Some bytes → fs w !! q = Some (format template p) →
    shell (fs w) ("python " +:+ q) = (rc, out) → rc ≠ 0 →
    grounded J obj flag (verdict flag (CalledProcessError rc ("python " +:+ q) out))
| own_call_failed e :
    origin J obj e →
    grounded J obj flag (caught flag e)
| own_escaped e :
    escaped J e →
    grounded J obj flag (Raise e).

(** Nothing else decides the result: [True] is returned only when none
    of the thread's calls raised, and an exception raised outside the
    [try] block is the result. *)
Definition unspoilt (J : list record) (c : completion unit) : Prop :=
  (c = Return true → no_raise J) ∧ (∀ e, escaped J e → c = Raise e).

(** The result of a call matches its own input, as its journal [J]
    shows. *)
Definition own_verdict (J : list record) (obj : loc) (flag : bool)
    (c : completion unit) : Prop :=
  grounded J obj flag c ∧ unspoilt J c.

(** **** Program points of a call

    The thread of a call is at one of these points; [code] gives the
    program that is left to run there and [advance] the step taken. *)
Inductive stage : Type :=
| AtAlloc1
| AtAlloc2 (bd : fd) (p : path)
| AtClose1 (bd : fd) (p : path) (sd : fd) (q : path)
| AtClose2 (p : path) (sd : fd) (q : path)
| AtOpenPayload (p q : path)
| AtDump (p q : path) (bf : fd)
| AtClosePayload (p q : path) (bf : fd) (c : completion unit)
| AtOpenScript (p q : path)
| AtWrite (p q : path) (sf : fd)
| AtCloseScript (p q : path) (sf : fd) (c : completion unit)
| AtSpawn (p q : path)
| AtUnlink1 (p q : path) (c : completion unit)
| AtUnlink2 (q : path) (c : completion unit)
| Finished (c : completion unit).

Definition code (obj : loc) (raise_on_error : bool) (st : stage) : py unit :=
  match st with
  | AtAlloc1 => is_serializable obj raise_on_error
  | AtAlloc2 bd p =>
      '(sd, q) ← call Mkstemp;
      after_alloc obj raise_on_error bd p sd q
  | AtClose1 bd p sd q => after_alloc obj raise_on_error bd p sd q
  | AtClose2 p sd q =>
      call (OsClose sd);;
      protect raise_on_error p q
        (with_open p (λ bf, call (Dump obj bf));; script_block p q;;
         spawn_block raise_on_error q)
  | AtOpenPayload p q =>
      protect raise_on_error p q
        (with_open p (λ bf, call (Dump obj bf));; script_block p q;;
         spawn_block raise_on_error q)
  | AtDump p q bf =>
      protect raise_on_error p q
        (try_finally (call (Dump obj bf)) (call (FileClose bf));;
         script_block p q;; spawn_block raise_on_error q)
  | AtClosePayload p q bf c =>
      protect raise_on_error p q
        (try_finally (Done c) (call (FileClose bf));;
         script_block p q;; spawn_block raise_on_error q)
  | AtOpenScript p q =>
      protect raise_on_error p q (script_block p q;; spawn_block raise_on_error q)
  | AtWrite p q sf =>
      protect raise_on_error p q
        (try_finally (call (Write sf (format template p))) (call (FileClose sf));;
         spawn_block raise_on_error q)
  | AtCloseScript p q sf c =>
      protect raise_on_error p q
        (try_finally (Done c) (call (FileClose sf));; spawn_block raise_on_error q)
  | AtSpawn p q => protect raise_on_error p q (spawn_block raise_on_error q)
  | AtUnlink1 p q c => try_finally (Done c) (cleanup p q);; return_ true
  | AtUnlink2 q c => try_finally (Done c) (call (Unlink q));; return_ true
  | Finished c => Done c
  end.

(** Where the guarded block goes once a [with] block has closed its file. *)
Definition after_with (raise_on_error : bool) (c : completion unit) (next : stage)
    (p q : path) : stage :=
  match c with
  | Normal _ => next
  | Return b => AtUnlink1 p q (Return b)
  | Raise e => AtUnlink1 p q (caught raise_on_error e)
  end.

Definition advance (obj : loc) (raise_on_error : bool) (st : stage) (w : World)
  : stage * World * label :=
  match st with
  | AtAlloc1 =>
      match mkstemp w with
      | (inl e, w1) => (Finished (Raise e), w1, Silent)
      | (inr (bd, p), w1) => (AtAlloc2 bd p, w1, Allocated p)
      end
  | AtAlloc2 bd p =>
      match mkstemp w with
      | (inl e, w1) => (Finished (Raise e), w1, Silent)
      | (inr (sd, q), w1) => (AtClose1 bd p sd q, w1, Allocated q)
      end
  | AtClose1 bd p sd q =>
      match close bd w with
      | (inl e, w1) => (Finished (Raise e), w1, Silent)
      | (inr _, w1) => (AtClose2 p sd q, w1, Silent)
      end
  | AtClose2 p sd q =>
      match close sd w with
      | (inl e, w1) => (Finished (Raise e), w1, Silent)
      | (inr _, w1) => (AtOpenPayload p q, w1, Silent)
      end
  | AtOpenPayload p q =>
      match open p w with
      | (inl e, w1) => (AtUnlink1 p q (caught raise_on_error e), w1, Silent)
      | (inr bf, w1) => (AtDump p q bf, w1, Silent)
      end
  | AtDump p q bf =>
      let '(r, w1) := dump obj bf w in
      (AtClosePayload p q bf (answer r), w1, Silent)
  | AtClosePayload p q bf c =>
      match close bf w with
      | (inl e, w1) => (AtUnlink1 p q (caught raise_on_error e), w1, Silent)
      | (inr _, w1) => (after_with raise_on_error c (AtOpenScript p q) p q, w1, Silent)
      end
  | AtOpenScript p q =>
      match open q w with
      | (inl e, w1) => (AtUnlink1 p q (caught raise_on_error e), w1, Silent)
      | (inr sf, w1) => (AtWrite p q sf, w1, Silent)
      end
  | AtWrite p q sf =>
      let '(r, w1) := write sf (format template p) w in
      (AtCloseScript p q sf (answer r), w1, Silent)
  | AtCloseScript p q sf c =>
      match close sf w with
      | (inl e, w1) => (AtUnlink1 p q (caught raise_on_error e), w1, Silent)
      | (inr _, w1) => (after_with raise_on_error c (AtSpawn p q) p q, w1, Silent)
      end
  | AtSpawn p q =>
      match check_output ("python " +:+ q) w with
      | (inl e, w1) => (AtUnlink1 p q (caught raise_on_error e), w1, Silent)
      | (inr _, w1) => (AtUnlink1 p q (Normal ()), w1, Silent)
      end
  | AtUnlink1 p q c =>
      match unlink p w with
      | (inl e, w1) => (Finished (Raise e), w1, Silent)
      | (inr _, w1) => (AtUnlink2 q c, w1, Released p)
      end
  | AtUnlink2 q c =>
      match unlink q w with
      | (inl e, w1) => (Finished (Raise e), w1, Silent)
      | (inr _, w1) => (Finished (final c), w1, Released q)
      end
  | Finished c => (Finished c, w, Silent)
  end.

(** What a thread owns at a program point. *)
Definition owned_paths (st : stage) : gset path :=
  match st with
  | AtAlloc1 | Finished _ => ∅
  | AtAlloc2 _ p => {[ p ]}
  | AtClose1 _ p _ q | AtClose2 p _ q | AtOpenPayload p q | AtDump p q _
  | AtClosePayload p q _ _ | AtOpenScript p q | AtWrite p q _ | AtCloseScript p q _ _
  | AtSpawn p q | AtUnlink1 p q _ => {[ p; q ]}
  | AtUnlink2 q _ => {[ q ]}
  end.

Definition owned_fds (st : stage) : gset fd :=
  match st with
  | AtAlloc2 bd _ => {[ bd ]}
  | AtClose1 bd _ sd _ => {[ bd; sd ]}
  | AtClose2 _ sd _ => {[ sd ]}
  | AtDump _ _ f | AtClosePayload _ _ f _ | AtWrite _ _ f | AtCloseScript _ _ f _ => {[ f ]}
  | _ => ∅
  end.

Definition holds_payload (J : list record) (obj : loc) (p : path) (w : World) : Prop :=
  ∃ bytes, encoded J obj bytes ∧ fs w !! p = Some bytes.

(** What a thread at a program point relies on, which only speaks of
    the files and descriptors it owns and of its own journal [J]. *)
Definition local_ok (J : list record) (obj : loc) (flag : bool)
    (st : stage) (w : World) : Prop :=
  match st with
  | AtAlloc1 => True
  | AtAlloc2 bd p => is_Some (fs w !! p) ∧ is_Some (fds w !! bd)
  | AtClose1 bd p sd q =>
      p ≠ q ∧ bd ≠ sd ∧ is_Some (fs w !! p) ∧ is_Some (fs w !! q) ∧
      is_Some (fds w !! bd) ∧ is_Some (fds w !! sd)
  | AtClose2 p sd q =>
      p ≠ q ∧ is_Some (fs w !! p) ∧ is_Some (fs w !! q) ∧ is_Some (fds w !! sd)
  | AtOpenPayload p q => p ≠ q ∧ is_Some (fs w !! p) ∧ is_Some (fs w !! q)
  | AtDump p q bf =>
      p ≠ q ∧ fs w !! p = Some "" ∧ is_Some (fs w !! q) ∧ fds w !! bf = Some p
  | AtClosePayload p q bf c =>
      p ≠ q ∧ is_Some (fs w !! p) ∧ is_Some (fs w !! q) ∧ is_Some (fds w !! bf) ∧
      match c with
      | Normal _ => holds_payload J obj p w
      | Raise e => origin J obj e
      | Return _ => False
      end
  | AtOpenScript p q => p ≠ q ∧ holds_payload J obj p w ∧ is_Some (fs w !! q)
  | AtWrite p q sf =>
      p ≠ q ∧ holds_payload J obj p w ∧ fs w !! q = Some "" ∧ fds w !! sf = Some q
  | AtCloseScript p q sf c =>
      p ≠ q ∧ holds_payload J obj p w ∧ is_Some (fs w !! q) ∧ is_Some (fds w !! sf) ∧
      match c with
      | Normal _ => fs w !! q = Some (format template p)
      | Raise e => origin J obj e
      | Return _ => False
      end
  | AtSpawn p q =>
      p ≠ q ∧ holds_payload J obj p w ∧ fs w !! q = Some (format template p)
  | AtUnlink1 p q c =>
      p ≠ q ∧ is_Some (fs w !! p) ∧ is_Some (fs w !! q) ∧
      grounded J obj flag (final c)
  | AtUnlink2 q c => is_Some (fs w !! q) ∧ grounded J obj flag (final c)
  | Finished c => grounded J obj flag c
  end.

(** What the journal of a thread does not hold once the [try] block
    and its handlers have completed with [c]: no failed call when the
    block went through, and none outside the block when a handler
    decided. *)
Definition settled (J : list record) (c : completion unit) : Prop :=
  match c with
  | Normal _ => no_raise J
  | Return b => b = false ∧ contained J
  | Raise _ => contained J
  end.

(** The same at every program point: no failed call as long as the
    [try] block goes well, and none outside of it as long as the call
    goes on. *)
Definition tidy (J : list record) (st : stage) : Prop :=
  match st with
  | AtClosePayload _ _ _ c | AtCloseScript _ _ _ c =>
      match c with
      | Normal _ => no_raise J
      | Return _ => False
      | Raise _ => contained J
      end
  | AtUnlink1 _ _ c | AtUnlink2 _ c => settled J c
  | Finished c => unspoilt J c
  | _ => no_raise J
  end.

(** What one step of a thread guarantees to itself and to the others. *)
Definition step_ok (J : list record) (obj : loc) (flag : bool)
    (st : stage) (w : World) (st' : stage) (w' : World) (lab : label) : Prop :=
  local_ok J obj flag st' w' ∧
  (∀ x, x ∉ owned_paths st → lab ≠ Allocated x → fs w' !! x = fs w !! x) ∧
  (∀ x, lab ≠ Released x → is_Some (fs w !! x) → is_Some (fs w' !! x)) ∧
  match lab with
  | Allocated p =>
      fs w !! p = None ∧ is_Some (fs w' !! p) ∧ owned_paths st' ⊆ owned_paths st ∪ {[ p ]}
  | Released p =>
      p ∈ owned_paths st ∧ fs w' !! p = None ∧ owned_paths st' ⊆ owned_paths st ∖ {[ p ]}
  | Silent => owned_paths st' ⊆ owned_paths st
  end ∧
  (∀ d, d ∉ owned_fds st → is_Some (fds w !! d) → fds w' !! d = fds w !! d) ∧
  (∀ d, d ∈ owned_fds st' → d ∈ owned_fds st ∨ fds w !! d = None).

(** The invariant of a system of calls, [past i] being what thread [i]
    has done so far: every thread is at a program point of its call and
    finds what it relies on, the names held by different threads are
    different files that exist, and so are their descriptors. *)
Definition sys_inv (past : nat → list record) (calls : list (loc * bool))
    (s : system) : Prop :=
  ∃ stages : list stage,
    List.length (threads s) = List.length calls ∧
    List.length stages = List.length calls ∧
    (∀ i call st, calls !! i = Some call → stages !! i = Some st →
       threads s !! i = Some (code call.1 call.2 st) ∧
       local_ok (past i) call.1 call.2 st (world s) ∧
       owned_paths st ⊆ held (trace s) i) ∧
    (∀ i x, x ∈ held (trace s) i → is_Some (fs (world s) !! x)) ∧
    (∀ i j, i ≠ j → held (trace s) i ## held (trace s) j) ∧
    (∀ i j sti stj, i ≠ j → stages !! i = Some sti → stages !! j = Some stj →
       owned_fds sti ## owned_fds stj) ∧
    collision_free (trace s).

(** *** Further vocabulary *)

(** The child exits recorded in a list of events. *)
Definition exits (l : list event) : list (string * Z * string) :=
  omap (λ ev, match ev with
              | Exited cmd rc out => Some (cmd, rc, out)
              | Raised _ => None
              end) l.

(** How the two modes complete a block on one and the same run: what
    [raise_on_error=True] raises, [raise_on_error=False] turns into
    [False] when it is an [Exception] and raises as well when it is not. *)
Definition block_report (c_raise c_quiet : completion unit) : Prop :=
  match c_raise, c_quiet with
  | Normal _, Normal _ => True
  | Return b, Return b' => b = b'
  | Raise e, Return false => is_Exception e = true
  | Raise e, Raise e' => e = e'
  | _, _ => False
  end.

(** The same for a whole call, where [raise_on_error=True] never
    returns [False]. *)
Definition same_report (c_raise c_quiet : completion unit) : Prop :=
  match c_raise, c_quiet with
  | Return true, Return true => True
  | Raise e, Return false => is_Exception e = true
  | Raise e, Raise e' => e = e'
  | _, _ => False
  end.

(** What [raise_on_error=False] makes of the result that
    [raise_on_error=True] gives when the [finally] clause does not fail. *)
Definition collapse (c : completion unit) : completion unit :=
  match c with
  | Raise e => if is_Exception e then Return false else Raise e
  | _ => c
  end.

(** The external calls a thread has left at most, by program point. *)
Definition rank (st : stage) : nat :=
  match st with
  | AtAlloc1 => 13
  | AtAlloc2 _ _ => 12
  | AtClose1 _ _ _ _ => 11
  | AtClose2 _ _ _ => 10
  | AtOpenPayload _ _ => 9
  | AtDump _ _ _ => 8
  | AtClosePayload _ _ _ _ => 7
  | AtOpenScript _ _ => 6
  | AtWrite _ _ _ => 5
  | AtCloseScript _ _ _ _ => 4
  | AtSpawn _ _ => 3
  | AtUnlink1 _ _ _ => 2
  | AtUnlink2 _ _ => 1
  | Finished _ => 0
  end%nat.

(** Every file of the directory is accounted for: the files that were
    there are there, unchanged and held by no thread, and any other
    file is held by a thread. *)
Definition files_accounted (w0 : World) (s : system) : Prop :=
  (∀ x c, fs w0 !! x = Some c →
     fs (world s) !! x = Some c ∧ ∀ i, x ∉ held (trace s) i) ∧
  (∀ x, is_Some (fs (world s) !! x) →
     is_Some (fs w0 !! x) ∨ ∃ i, x ∈ held (trace s) i).

End World.

Global Arguments World : clear implicits.
Global Arguments system : clear implicits.

(** ** A concrete platform, for evaluating the model *)

Module Demo.

(** Values are numbers; the encoder refuses negative ones, 3 is an
    object whose reduction hook raises [KeyboardInterrupt], and 10 is an
    object whose reduction hook counts how often it was pickled. *)
Definition dumps (h : gmap loc Z) (l : loc) : gmap loc Z * (exn + string) :=
  match h !! l with
  | Some 0 => (h, inr "ok")
  | Some 1 => (h, inr "bad")
  | Some 2 => (h, inr "exit")
  | Some 3 => (h, inl (BaseException "KeyboardInterrupt"))
  | Some 10 => (<[l := 11]> h, inr "ok")
  | _ => (h, inl (Exception "PicklingError" "cannot pickle"))
  end.

(** The child.  [python q] reads the script in [q]; the loader names
    the payload file, and loading the payload succeeds, dies with a
    traceback, or leaves through [sys.exit(1)] without a word. *)
Definition script_of (cmd : string) : option path :=
  if String.prefix "python " cmd
  then Some (String.substring 7 (String.length cmd - 7) cmd)
  else None.

Definition payload_of (files : gmap path string) (script : string) : option path :=
  List.find (λ p, String.eqb (format template p) script) (map_to_list files).*1.

Definition load (bytes : string) : Z * string :=
  if String.eqb bytes "ok" then (0, "")
  else if String.eqb bytes "exit" then (1, "")
  else (1, "Traceback (most recent call last): AttributeError").

Definition shell (files : gmap path string) (cmd : string) : Z * string :=
  match script_of cmd with
  | None => (127, "sh: not found")
  | Some q =>
      match files !! q with
      | None => (2, "python: can't open file")
      | Some script =>
          match payload_of files script with
          | None => (1, "Traceback (most recent call last): FileNotFoundError")
          | Some p => load (default "" (files !! p))
          end
      end
  end.

Definition heap0 : gmap loc Z :=
  {[ 1%positive := 0; 2%positive := 1; 3%positive := 2; 4%positive := -1; 5%positive := 3;
     6%positive := 10 ]}.

Definition w0 : World Z :=
  mkWorld ∅ ∅ heap0 ["/tmp/a"; "/tmp/b"] [] [].

(** The first, respectively the second, [mkstemp] call fails. *)
Definition w_first_alloc_fails : World Z :=
  mkWorld ∅ ∅ heap0 ["/tmp/a"; "/tmp/b"] [Some (Exception "OSError" "No space left on device")] [].

Definition w_second_alloc_fails : World Z :=
  mkWorld ∅ ∅ heap0 ["/tmp/a"; "/tmp/b"]
    [None; Some (Exception "OSError" "Too many open files")] [].

(** Two calls, on objects 1 and 2, whose threads take turns. *)
Definition w_two_calls : World Z :=
  mkWorld ∅ ∅ heap0 ["/tmp/a"; "/tmp/b"; "/tmp/c"; "/tmp/d"] [] [].

Definition two_calls : list (loc * bool) := [(1%positive, false); (2%positive, false)].

Definition round_robin : list nat := mjoin (replicate 13 [0; 1]%nat).

(** The worlds after the first and after the second [mkstemp] call,
    from [w0] and from [w_second_alloc_fails]. *)
Definition w1 : World Z :=
  mkWorld {[ "/tmp/a" := "" ]} {[ 0%nat := "/tmp/a" ]} heap0 ["/tmp/b"] [] [].

Definition w2 : World Z :=
  mkWorld {[ "/tmp/a" := ""; "/tmp/b" := "" ]} {[ 0%nat := "/tmp/a"; 1%nat := "/tmp/b" ]}
    heap0 [] [] [].

Definition w1_second_alloc_fails : World Z :=
  mkWorld {[ "/tmp/a" := "" ]} {[ 0%nat := "/tmp/a" ]} heap0 ["/tmp/b"]
    [Some (Exception "OSError" "Too many open files")] [].

Definition w2_second_alloc_fails : World Z :=
  mkWorld {[ "/tmp/a" := "" ]} {[ 0%nat := "/tmp/a" ]} heap0 ["/tmp/b"] []
    [Raised (Exception "OSError" "Too many open files")].

(** What the failed first [mkstemp] leaves of [w_first_alloc_fails]. *)
Definition w1_first_alloc_fails : World Z :=
  mkWorld ∅ ∅ heap0 ["/tmp/a"; "/tmp/b"] []
    [Raised (Exception "OSError" "No space left on device")].

(** A directory in which the first name [tempfile] tries is taken. *)
Definition w_busy : World Z :=
  mkWorld {[ "/tmp/a" := "keep" ]} ∅ heap0 ["/tmp/a"; "/tmp/b"; "/tmp/c"] [] [].

Definition w1_busy : World Z :=
  mkWorld {[ "/tmp/a" := "keep"; "/tmp/b" := "" ]} {[ 0%nat := "/tmp/b" ]} heap0
    ["/tmp/c"] [] [].

Definition w2_busy : World Z :=
  mkWorld {[ "/tmp/a" := "keep"; "/tmp/b" := ""; "/tmp/c" := "" ]}
    {[ 0%nat := "/tmp/b"; 1%nat := "/tmp/c" ]} heap0 [] [] [].

(** The platform fails [os.unlink(binary_file)], the eighth fallible
    call of a run that gets as far as its child: the file is gone, say,
    because the child removed it. *)
Definition w_unlink_fails : World Z :=
  mkWorld ∅ ∅ heap0 ["/tmp/a"; "/tmp/b"]
    (replicate 7 None ++ [Some (Exception "FileNotFoundError" "/tmp/a")]) [].

(** The platform fails [open(script_file, "w")], the fifth fallible
    call; the worlds after the first and after the second [mkstemp]. *)
Definition w_open_fails : World Z :=
  mkWorld ∅ ∅ heap0 ["/tmp/a"; "/tmp/b"]
    (replicate 4 None ++ [Some (Exception "OSError" "No space left on device")]) [].

Definition w1_open_fails : World Z :=
  mkWorld {[ "/tmp/a" := "" ]} {[ 0%nat := "/tmp/a" ]} heap0 ["/tmp/b"]
    (replicate 3 None ++ [Some (Exception "OSError" "No space left on device")]) [].

Definition w2_open_fails : World Z :=
  mkWorld {[ "/tmp/a" := ""; "/tmp/b" := "" ]} {[ 0%nat := "/tmp/a"; 1%nat := "/tmp/b" ]}
    heap0 []
    (replicate 2 None ++ [Some (Exception "OSError" "No space left on device")]) [].

End Demo.

(** ** raise_on_exception *)

Module ContextFlag.

(** Values stored under a key of the context. *)
Inductive pyval : Type :=
| PyNone
| PyBool (b : bool)
| PyStr (s : string).

(** A context manager over a state [S]: what [__enter__] saves and
    does, and what [__exit__] does with what was saved.  [__exit__]
    returns nothing, so an exception of the block is never swallowed. *)
Record context_manager (S T : Type) : Type := mkCM {
  cm_enter : S → T * S;
  cm_exit : T → S → S
}.
Global Arguments mkCM {S T} _ _.
Global Arguments cm_enter {S T} _ _.
Global Arguments cm_exit {S T} _ _ _.

(** [with cm: block] *)
Definition with_ {S T A : Type} (cm : context_manager S T)
    (block : S → completion A * S) (s : S) : completion A * S :=
  let '(saved, s1) := cm_enter cm s in
  let '(c, s2) := block s1 in
  (c, cm_exit cm saved s2).

(** Modelled from the spec: [prefect.context], which lives in
    prefect/utilities/context.py and is not part of this file.  The
    spec describes it as a process-wide context whose keys are set for
    the duration of a [with]-style scope and restored on exit: entering
    saves the context and applies the keyword arguments, leaving puts
    the saved context back. *)
Definition prefect_context (kwargs : gmap string pyval)
  : context_manager (gmap string pyval) (gmap string pyval) :=
  mkCM (λ ctx, (ctx, kwargs ∪ ctx)) (λ previous _, previous).

(** The generator of [raise_on_exception] yields once, inside the
    [with prefect.context(raise_on_exception=True)] statement: the block
    of the caller runs at that [yield]. *)
Definition raise_on_exception {A : Type}
    (block : gmap string pyval → completion A * gmap string pyval)
  : gmap string pyval → completion A * gmap string pyval :=
  with_ (prefect_context {[ "raise_on_exception" := PyBool true ]}) block.

(** What the engine finds under the key at a decision point. *)
Definition flag (ctx : gmap string pyval) : option pyval :=
  ctx !! "raise_on_exception".

End ContextFlag.

(** ** make_return_failed_handler *)

Module ReturnFailed.
Section Handler.

(** [prefect.engine.state] is imported, not defined, by this file: the
    state classes, their subclass relation and the class of a state
    object are parameters. *)
Context {StateClass State : Type}.
Variable issubclass : StateClass → StateClass → bool.
Variable type_of : State → StateClass.
Variables Failed Retrying : StateClass.

(** Tasks are hashable. *)
Context `{Countable Task}.

(** The part of a [TaskRunner] the handler reads. *)
Record TaskRunner : Type := mkTaskRunner { task : Task }.

(** [isinstance(s, (c1, ..., cn))] *)
Definition isinstance (s : State) (classes : list StateClass) : bool :=
  existsb (issubclass (type_of s)) classes.

(** Python sets are mutable objects: the store maps the reference the
    caller passed to the set it currently denotes. *)
Definition set_add (l : loc) (t : Task) (σ : gmap loc (gset Task)) : gmap loc (gset Task) :=
  alter (λ s, s ∪ {[ t ]}) l σ.

Definition make_return_failed_handler (failed_tasks_set : loc)
  : TaskRunner → State → State → gmap loc (gset Task) → State * gmap loc (gset Task) :=
  λ task_runner old_state new_state σ,
    let σ1 :=
      if isinstance new_state [Failed; Retrying]
      then set_add failed_tasks_set (task task_runner) σ
      else σ in
    (new_state, σ1).

(** The engine calling one handler for successive transitions of the
    work unit of [task_runner]. *)
Fixpoint call_handler
    (handler : TaskRunner → State → State → gmap loc (gset Task) → State * gmap loc (gset Task))
    (task_runner : TaskRunner) (transitions : list (State * State))
    (σ : gmap loc (gset Task)) : gmap loc (gset Task) :=
  match transitions with
  | [] => σ
  | (old_state, new_state) :: rest =>
      call_handler handler task_runner rest (handler task_runner old_state new_state σ).2
  end.

(** The engine calling one handler for the transitions of several
    task runners, one after the other: the handler is registered once,
    for every task of the flow. *)
Definition call_handlers
    (handler : TaskRunner → State → State → gmap loc (gset Task) → State * gmap loc (gset Task))
    (transitions : list (TaskRunner * State * State))
    (σ : gmap loc (gset Task)) : gmap loc (gset Task) :=
  foldl (λ σ '(task_runner, old_state, new_state),
           (handler task_runner old_state new_state σ).2) σ transitions.

End Handler.
End ReturnFailed.

(** A small class hierarchy, for evaluating the handler: every class
    derives from [State], and [TimedOut] derives from [Failed]. *)
Module DemoStates.

Inductive state_class : Type :=
| CState | CRunning | CSuccess | CFailed | CRetrying | CTimedOut.

Definition issubclass (c d : state_class) : bool :=
  match c, d with
  | _, CState => true
  | CRunning, CRunning | CSuccess, CSuccess | CFailed, CFailed
  | CRetrying, CRetrying | CTimedOut, CTimedOut => true
  | CTimedOut, CFailed => true
  | _, _ => false
  end.

(** A state object: its class and its message. *)
Record state : Type := mkState { state_class_of : state_class; message : string }.

(** Tasks are named. *)
Definition store0 : gmap loc (gset string) := {[ 1%positive := {[ "extract" ]} ]}.

End DemoStates.

(** * Properties *)

(** ** is_serializable: the loader script *)

Lemma length_append (a b : string) :
  String.length (a +:+ b) = (String.length a + String.length b)%nat.
Proof.
  induction a as [|c a IH]; [done|].
  change (S (String.length (a +:+ b)) = S (String.length a + String.length b)).
  by rewrite IH.
Qed.

Lemma append_inj_l (a b rest : string) : a +:+ rest = b +:+ rest → a = b.
Proof.
  revert b. induction a as [|c a IH]; intros [|d b] Heq; [done| | |].
  - apply (f_equal String.length) in Heq. rewrite !length_append in Heq. cbn in Heq. lia.
  - apply (f_equal String.length) in Heq. rewrite !length_append in Heq. cbn in Heq. lia.
  - change (String c (a +:+ rest) = String d (b +:+ rest)) in Heq.
    injection Heq as -> Heq. f_equal. by apply IH.
Qed.

(** X10.  The script written for a call names the payload file of that call
    and no other: the payload path can be read back from the script, so
    calls with different payload files run different scripts. *)
Theorem loader_script_names_payload (binary_file binary_file' : path) :
  format template binary_file = format template binary_file' →
  binary_file = binary_file'.
Proof.
  unfold template. cbn [format]. intros Heq.
  repeat (injection Heq as Heq). by eapply append_inj_l.
Qed.

(** ** is_serializable: running programs *)

Section SerializableFacts.

Context {Value : Type}.
Variable cloudpickle_dumps : gmap loc Value → loc → gmap loc Value * (exn + string).
Variable shell : gmap path string → string → Z * string.

#[local] Abbreviation exec := (run cloudpickle_dumps shell).
#[local] Abbreviation wp' := (wp cloudpickle_dumps shell).
#[local] Abbreviation handle' := (handle cloudpickle_dumps shell).
#[local] Abbreviation outcome' := (outcome cloudpickle_dumps shell).
#[local] Abbreviation guarded_post' := (guarded_post cloudpickle_dumps shell).
#[local] Abbreviation finished' := (finished cloudpickle_dumps shell).
#[local] Abbreviation child_exits' := (child_exits cloudpickle_dumps shell).
#[local] Abbreviation encoder_fails' := (encoder_fails cloudpickle_dumps).
#[local] Abbreviation try_block_fails' := (try_block_fails cloudpickle_dumps).
#[local] Abbreviation try_block_end' := (try_block_end cloudpickle_dumps shell).
Implicit Types (w : World Value) (e : exn) (p q : path) (obj : loc) (flag : bool).

Lemma run_bind {A B} (m : py A) (f : A → py B) w :
  exec (m ≫= f) w =
    match exec m w with
    | (Normal a, w1) => exec (f a) w1
    | (Return b, w1) => (Return b, w1)
    | (Raise e, w1) => (Raise e, w1)
    end.
Proof.
  revert w. induction m as [[a|b|e]|X op k IH]; intros w; try reflexivity.
  change (exec (Call op (λ r, k r ≫= f)) w =
          match exec (Call op k) w with
          | (Normal a, w1) => exec (f a) w1
          | (Return b, w1) => (Return b, w1)
          | (Raise e, w1) => (Raise e, w1)
          end).
  simpl. destruct (handle' op w) as [r w1]. apply IH.
Qed.

Lemma run_try_except {A} (body : py A) (cls : exn → bool) (handler : exn → py A) w :
  exec (try_except body cls handler) w =
    match exec body w with
    | (Raise e, w1) => if cls e then exec (handler e) w1 else (Raise e, w1)
    | r => r
    end.
Proof.
  revert w. induction body as [[a|b|e]|X op k IH]; intros w; simpl; try reflexivity.
  - destruct (cls e); reflexivity.
  - destruct (handle' op w) as [r w1]. apply IH.
Qed.

Lemma run_try_finally {A} (body : py A) (fin : py unit) w :
  exec (try_finally body fin) w =
    let '(c, w1) := exec body w in
    let '(c2, w2) := exec fin w1 in
    (resume c c2, w2).
Proof.
  revert w. induction body as [c|X op k IH]; intros w; simpl.
  - change (py_bind (λ _, Done c) fin) with (fin ≫= (λ _, Done c)).
    rewrite run_bind. destruct (exec fin w) as [[?|?|?] w2]; reflexivity.
  - destruct (handle' op w) as [r w1]. apply IH.
Qed.

Lemma run_call {X} (op : Op X) w :
  exec (call op) w = ((answer (handle' op w).1), (handle' op w).2).
Proof. simpl. destruct (handle' op w) as [[e|x] w1]; reflexivity. Qed.

Lemma run_close (op : Op unit) d x w :
  handle' op = close d → fds w !! d = Some x →
  exec (call op) w = (Normal (), set_fds (delete d) w).
Proof. intros Hop Hd. rewrite run_call, Hop. unfold close. by rewrite Hd. Qed.

(** ** is_serializable: rules for weakest preconditions *)

Lemma wp_mono {R} (m : prog R) (Q1 Q2 : R → World Value → Prop) w :
  wp' m Q1 w → (∀ r w1, Q1 r w1 → Q2 r w1) → wp' m Q2 w.
Proof. unfold wp. auto. Qed.

Lemma wp_done {R} (r : R) (Q : R → World Value → Prop) w : Q r w → wp' (Done r) Q w.
Proof. done. Qed.

Lemma wp_bind {A B} (m : py A) (f : A → py B) Q w :
  wp' m (λ c w1, match c with
                 | Normal a => wp' (f a) Q w1
                 | Return b => Q (Return b) w1
                 | Raise e => Q (Raise e) w1
                 end) w →
  wp' (m ≫= f) Q w.
Proof.
  unfold wp. rewrite run_bind. destruct (exec m w) as [[a|b|e] w1]; done.
Qed.

Lemma wp_try_except {A} (body : py A) (cls : exn → bool) (handler : exn → py A) Q w :
  wp' body (λ c w1, match c with
                    | Raise e => if cls e then wp' (handler e) Q w1 else Q (Raise e) w1
                    | _ => Q c w1
                    end) w →
  wp' (try_except body cls handler) Q w.
Proof.
  unfold wp. rewrite run_try_except.
  destruct (exec body w) as [[a|b|e] w1]; simpl; try done.
  destruct (cls e); done.
Qed.

Lemma wp_try_finally {A} (body : py A) (fin : py unit) Q w :
  wp' body (λ c w1, wp' fin (λ c2 w2, Q (resume c c2) w2) w1) w →
  wp' (try_finally body fin) Q w.
Proof.
  unfold wp. rewrite run_try_finally.
  destruct (exec body w) as [c w1]; simpl. destruct (exec fin w1) as [c2 w2]; done.
Qed.

Lemma wp_call {X} (op : Op X) (Q : completion X → World Value → Prop) w :
  Q (answer (handle' op w).1) (handle' op w).2 → wp' (call op) Q w.
Proof. unfold wp. by rewrite run_call. Qed.

Lemma wp_open p (Q : completion fd → World Value → Prop) w :
  (∀ e, pending w = Some e → Q (Raise e) (emit (Raised e) (consumed w))) →
  (pending w = None →
   Q (Normal (new_fd w)) (set_fds (insert (new_fd w) p) (set_fs (insert p "") (consumed w)))) →
  wp' (call (Open p)) Q w.
Proof.
  intros Hf Hok. apply wp_call. simpl. unfold open, next_fault.
  destruct (pending w) as [e|]; simpl; auto.
Qed.

Lemma wp_close (op : Op unit) d p (Q : completion unit → World Value → Prop) w :
  handle' op = close d →
  fds w !! d = Some p →
  Q (Normal ()) (set_fds (delete d) w) →
  wp' (call op) Q w.
Proof.
  intros Hop Hd HQ. apply wp_call. rewrite Hop. unfold close. by rewrite Hd.
Qed.

Lemma wp_unlink p c (Q : completion unit → World Value → Prop) w :
  fs w !! p = Some c →
  (∀ e, pending w = Some e → Q (Raise e) (emit (Raised e) (consumed w))) →
  (pending w = None → Q (Normal ()) (set_fs (delete p) (consumed w))) →
  wp' (call (Unlink p)) Q w.
Proof.
  intros Hp Hf Hok. apply wp_call. simpl. unfold unlink, next_fault.
  destruct (pending w) as [e|]; simpl; auto.
  change (fs (consumed w)) with (fs w). rewrite Hp. auto.
Qed.

Lemma wp_write f s p (Q : completion unit → World Value → Prop) w :
  fds w !! f = Some p →
  (∀ e, pending w = Some e → Q (Raise e) (emit (Raised e) (consumed w))) →
  (pending w = None → Q (Normal ()) (set_fs (alter (λ old, old +:+ s) p) (consumed w))) →
  wp' (call (Write f s)) Q w.
Proof.
  intros Hd Hf Hok. apply wp_call. simpl. unfold write, next_fault.
  destruct (pending w) as [e|]; simpl; auto.
  change (fds (consumed w)) with (fds w). rewrite Hd. auto.
Qed.

Lemma wp_dump obj f p (Q : completion unit → World Value → Prop) w :
  fds w !! f = Some p →
  (∀ h e, cloudpickle_dumps (heap w) obj = (h, inl e) →
     Q (Raise e) (emit (Raised e) (set_heap h w))) →
  (∀ h bytes e, cloudpickle_dumps (heap w) obj = (h, inr bytes) → pending w = Some e →
     Q (Raise e) (emit (Raised e) (consumed (set_heap h w)))) →
  (∀ h bytes, cloudpickle_dumps (heap w) obj = (h, inr bytes) → pending w = None →
     Q (Normal ()) (set_fs (alter (λ old, old +:+ bytes) p) (consumed (set_heap h w)))) →
  wp' (call (Dump obj f)) Q w.
Proof.
  intros Hd He Hf Hok. apply wp_call. simpl. unfold dump.
  destruct (cloudpickle_dumps (heap w) obj) as [h [e|bytes]] eqn:Hdump.
  - simpl. eauto.
  - unfold write, next_fault. change (pending (set_heap h w)) with (pending w).
    destruct (pending w) as [e|] eqn:Hp; simpl; [eauto|].
    change (fds (consumed (set_heap h w))) with (fds w). rewrite Hd. simpl. eauto.
Qed.

Lemma wp_check_output cmd (Q : completion string → World Value → Prop) w :
  (∀ e, pending w = Some e → Q (Raise e) (emit (Raised e) (consumed w))) →
  (∀ out, pending w = None → shell (fs w) cmd = (0, out) →
     Q (Normal out) (emit (Exited cmd 0 out) (consumed w))) →
  (∀ rc out, pending w = None → shell (fs w) cmd = (rc, out) → rc ≠ 0 →
     Q (Raise (CalledProcessError rc cmd out))
       (emit (Raised (CalledProcessError rc cmd out)) (emit (Exited cmd rc out) (consumed w)))) →
  wp' (call (CheckOutput cmd)) Q w.
Proof.
  intros Hf Hz Hnz. apply wp_call. simpl. unfold check_output, next_fault.
  destruct (pending w) as [e|]; simpl; [eauto|].
  change (fs (consumed w)) with (fs w).
  destruct (shell (fs w) cmd) as [rc out] eqn:Hsh.
  destruct (decide (rc = 0)) as [->|Hrc]; simpl; eauto.
Qed.

(** ** is_serializable: the calls *)

Lemma draw_name_fresh names (files : gmap path string) p rest :
  draw_name names files = (Some p, rest) → files !! p = None.
Proof.
  induction names as [|x names IH]; simpl; [done|].
  destruct (files !! x) eqn:Hx; [exact IH|]. intros [= <- _]. exact Hx.
Qed.

Lemma new_fd_fresh w : fds w !! new_fd w = None.
Proof. apply not_elem_of_dom, is_fresh. Qed.

Lemma append_empty_l (s : string) : "" +:+ s = s.
Proof. reflexivity. Qed.

Lemma close_opened (D : gmap fd path) d p : D !! d = None → delete d (<[d:=p]> D) = D.
Proof. intros Hd. by rewrite delete_insert_eq, delete_id. Qed.

Lemma pending_injected (l : list (option exn)) e : mjoin (head l) = Some e → Some e ∈ l.
Proof. destruct l as [|[e'|] l]; simpl; [done| |done]. intros [= ->]. left. Qed.

Ltac world_simpl :=
  unfold pending, consumed, set_fs, set_fds, set_heap, set_rng, set_faults, emit;
  cbn [fs fds heap rng faults log].

Ltac world_simpl_in H :=
  unfold pending, consumed, set_fs, set_fds, set_heap, set_rng, set_faults, emit in H;
  cbn [fs fds heap rng faults log] in H.

Ltac frame_files :=
  repeat match goal with
  | |- ∀ _, _ => intro
  | |- context [<[_:=_]> _ !! _] => rewrite lookup_insert
  | |- context [alter _ _ _ !! _] => rewrite lookup_alter
  | |- context [decide (?a = ?b)] => destruct (decide (a = b)); subst
  | H : is_Some ?o |- context [?o] =>
      let v := fresh "v" in let Hv := fresh "Hv" in destruct H as [v Hv]; rewrite Hv
  end; simpl; try done; eauto.

Ltac name_fd d Hd :=
  match goal with
  | |- context [new_fd ?W] =>
      generalize (new_fd_fresh W); generalize (new_fd W); intros d Hd; world_simpl_in Hd
  end.

Lemma pending_fault_at w : pending w = fault_at w 0.
Proof. unfold pending, fault_at. by rewrite head_lookup. Qed.

Lemma fault_at_consumed w n : fault_at (consumed w) n = fault_at w (S n).
Proof. unfold fault_at, consumed, set_faults. cbn [faults]. by rewrite lookup_tail. Qed.

Lemma fault_at_injected w n e : fault_at w n = Some e → Some e ∈ faults w.
Proof.
  unfold fault_at. destruct (faults w !! n) as [[e'|]|] eqn:Hn; simpl; try done.
  intros [= ->]. by eapply list_elem_of_lookup_2.
Qed.

Lemma no_fault_at w n : (∀ e, Some e ∉ faults w) → fault_at w n = None.
Proof.
  intros Hnone. destruct (fault_at w n) as [e|] eqn:Hn; [|done].
  by apply fault_at_injected, Hnone in Hn.
Qed.

(** Facts about the faults a run has met, as positions of the list. *)
Ltac fault_norm H := rewrite ?head_lookup, ?lookup_tail in H.

Ltac quiet :=
  let j := fresh "j" in
  let Hj := fresh "Hj" in
  intros j Hj; unfold fault_at; cbn [faults];
  repeat (destruct j as [|j]; [assumption|]); lia.

Ltac skipped :=
  let n := fresh "n" in
  intros n; rewrite ?lookup_tail; f_equal; lia.

Lemma mkstemp_ok w d p w1 :
  mkstemp w = (inr (d, p), w1) →
  fs w !! p = None ∧ fds w !! d = None ∧
  ∃ rest, w1 = mkWorld (<[p:=""]> (fs w)) (<[d:=p]> (fds w)) (heap w) rest
                 (tail (faults w)) (log w).
Proof.
  unfold mkstemp, next_fault. destruct (pending w) as [e|]; [done|].
  destruct (draw_name (rng (consumed w)) (fs (consumed w))) as [[x|] rest] eqn:Hdraw; [|done].
  intros [= <- <- <-]. split_and!.
  - by eapply draw_name_fresh.
  - apply (new_fd_fresh (consumed w)).
  - by exists rest.
Qed.

Lemma mkstemp_failed w e w1 :
  mkstemp w = (inl e, w1) →
  fs w1 = fs w ∧ fds w1 = fds w ∧ heap w1 = heap w ∧ log w1 = Raised e :: log w ∧
  faults w1 = tail (faults w) ∧ (Some e ∈ faults w ∨ e = no_usable_name).
Proof.
  unfold mkstemp, next_fault. destruct (pending w) as [e'|] eqn:Hpend.
  - intros [= <- <-]. split_and!; [done..|]. left. by apply pending_injected.
  - destruct (draw_name (rng (consumed w)) (fs (consumed w))) as [[x|] rest]; [done|].
    intros [= <- <-]. split_and!; [done..|]. by right.
Qed.

(** ** is_serializable: the guarded block *)

Lemma handler_post flag (P : completion unit → World Value → Prop) e w1 :
  P (caught flag e) w1 →
  if is_Exception e then wp' (on_error flag e) P w1 else P (Raise e) w1.
Proof. unfold on_error, caught. destruct (is_Exception e); [destruct flag|]; done. Qed.

Lemma guarded_spec obj flag p q w0 :
  p ≠ q → is_Some (fs w0 !! p) → is_Some (fs w0 !! q) →
  wp' (guarded obj flag p q) (guarded_post' obj flag p q w0) w0.
Proof.
  intros Hpq Hp Hq. unfold guarded, script_block, spawn_block.
  destruct w0 as [F D H R L G]. cbn [fs] in Hp, Hq.
  apply wp_try_except, wp_bind. unfold with_open.
  apply wp_bind, wp_open; world_simpl.
  { intros e He. fault_norm He. apply handler_post. unfold guarded_post. world_simpl.
    split_and!; auto. exists [Raised e], 1%nat. split_and!; [done|skipped|].
    eapply platform_failed with (n := 0%nat) (e := e); [lia|quiet|exact He|done|done..]. }
  intros Hf0. fault_norm Hf0. name_fd d Hd. apply wp_try_finally.
  eapply wp_dump; [world_simpl; apply lookup_insert_eq|..]; world_simpl.
  { intros h e Hdump.
    eapply wp_close; [reflexivity|world_simpl; apply lookup_insert_eq|].
    cbn [resume]. apply handler_post.
    unfold guarded_post. world_simpl. split_and!; [frame_files..| |].
    - by apply close_opened.
    - right. by rewrite Hdump.
    - exists [Raised e], 1%nat. split_and!; [done|skipped|].
      by eapply encoder_failed. }
  { intros h bytes e Hdump He. fault_norm He.
    eapply wp_close; [reflexivity|world_simpl; apply lookup_insert_eq|].
    cbn [resume]. apply handler_post.
    unfold guarded_post. world_simpl. split_and!; [frame_files..| |].
    - by apply close_opened.
    - right. by rewrite Hdump.
    - exists [Raised e], 2%nat. split_and!; [done|skipped|].
      eapply platform_failed with (n := 1%nat) (e := e); [lia|quiet|exact He|eauto|done..]. }
  intros h bytes Hdump Hf1. fault_norm Hf1.
  eapply wp_close; [reflexivity|world_simpl; apply lookup_insert_eq|].
  cbn [resume]. world_simpl. rewrite (close_opened _ _ _ Hd).
  rewrite alter_insert_eq, append_empty_l. clear d Hd.
  apply wp_bind, wp_bind, wp_open; world_simpl.
  { intros e He. fault_norm He. apply handler_post.
    unfold guarded_post. world_simpl. split_and!; [frame_files..| |].
    - right. by rewrite Hdump.
    - exists [Raised e], 3%nat. split_and!; [done|skipped|].
      eapply platform_failed with (n := 2%nat) (e := e); [lia|quiet|exact He|eauto|done..]. }
  intros Hf2. fault_norm Hf2. name_fd d Hd. apply wp_try_finally.
  eapply wp_write; [world_simpl; apply lookup_insert_eq|..]; world_simpl.
  { intros e He. fault_norm He.
    eapply wp_close; [reflexivity|world_simpl; apply lookup_insert_eq|].
    cbn [resume]. apply handler_post.
    unfold guarded_post. world_simpl. split_and!; [frame_files..| |].
    - by apply close_opened.
    - right. by rewrite Hdump.
    - exists [Raised e], 4%nat. split_and!; [done|skipped|].
      eapply platform_failed with (n := 3%nat) (e := e); [lia|quiet|exact He|eauto|done..]. }
  intros Hf3. fault_norm Hf3.
  eapply wp_close; [reflexivity|world_simpl; apply lookup_insert_eq|].
  cbn [resume]. world_simpl. rewrite (close_opened _ _ _ Hd).
  rewrite alter_insert_eq, append_empty_l. clear d Hd.
  apply wp_try_except, wp_bind, wp_check_output; world_simpl.
  { intros e He. fault_norm He.
    assert (guarded_post' obj flag p q (mkWorld F D H R L G) (caught flag e)
              (mkWorld (<[q:=format template p]> (<[p:=bytes]> F)) D h R
                 (tail (tail (tail (tail (tail L))))) (Raised e :: G))) as Hpost.
    { unfold guarded_post. world_simpl. split_and!; [frame_files..| |].
      - right. by rewrite Hdump.
      - exists [Raised e], 5%nat. split_and!; [done|skipped|].
        eapply platform_failed with (n := 4%nat) (e := e);
          [lia|quiet|exact He|eauto|done..]. }
    unfold on_error. unfold caught in Hpost.
    destruct e; cbn [is_CalledProcessError is_Exception] in *; destruct flag; exact Hpost. }
  { intros out Hf4 Hsh. fault_norm Hf4. apply wp_done.
    unfold guarded_post. world_simpl. split_and!; [frame_files..| |].
    - right. by rewrite Hdump.
    - exists [Exited ("python " +:+ q) 0 out], 5%nat. split_and!; [done|skipped|].
      eapply child_ok; [quiet|done..]. }
  intros rc out Hf4 Hsh Hrc. fault_norm Hf4. cbn [is_CalledProcessError].
  assert (guarded_post' obj flag p q (mkWorld F D H R L G)
            (verdict flag (CalledProcessError rc ("python " +:+ q) out))
            (mkWorld (<[q:=format template p]> (<[p:=bytes]> F)) D h R
               (tail (tail (tail (tail (tail L)))))
               (Raised (CalledProcessError rc ("python " +:+ q) out)
                :: Exited ("python " +:+ q) rc out :: G))) as Hpost.
  { unfold guarded_post. world_simpl. split_and!; [frame_files..| |].
    - right. by rewrite Hdump.
    - eexists [_; _], 5%nat. split_and!; [done|skipped|].
      eapply child_failed; [quiet|done..]. }
  unfold on_error. destruct flag; exact Hpost.
Qed.

(** ** is_serializable: the whole call *)

Lemma run_first_alloc_failed obj flag w e w1 :
  mkstemp w = (inl e, w1) → exec (is_serializable obj flag) w = (Raise e, w1).
Proof.
  intros H1. unfold is_serializable. rewrite run_bind, run_call. simpl handle. by rewrite H1.
Qed.

Lemma run_second_alloc_failed obj flag w bd p w1 e w2 :
  mkstemp w = (inr (bd, p), w1) → mkstemp w1 = (inl e, w2) →
  exec (is_serializable obj flag) w = (Raise e, w2).
Proof.
  intros H1 H2. unfold is_serializable. rewrite run_bind, run_call. simpl handle. rewrite H1.
  cbn [answer fst snd]. rewrite run_bind, run_call. simpl handle. by rewrite H2.
Qed.

Lemma run_allocated obj flag w bd p w1 sd q w2 :
  mkstemp w = (inr (bd, p), w1) → mkstemp w1 = (inr (sd, q), w2) →
  exec (is_serializable obj flag) w = exec (after_alloc obj flag bd p sd q) w2.
Proof.
  intros H1 H2. unfold is_serializable. rewrite run_bind, run_call. simpl handle. rewrite H1.
  cbn [answer fst snd]. rewrite run_bind, run_call. simpl handle. by rewrite H2.
Qed.

Lemma outcome_transport obj flag p q F1 F2 h0 (f1 f2 : nat → option exn) c new made :
  (∀ cp cq, <[q:=cq]> (<[p:=cp]> F1) = <[q:=cq]> (<[p:=cp]> F2)) →
  (∀ j, f1 j = f2 j) →
  outcome' obj flag p q F1 h0 f1 c new made → outcome' obj flag p q F2 h0 f2 c new made.
Proof.
  intros HF Hf [h bytes out Hq Hd Hsh -> -> ->|h bytes rc out Hq Hd Hsh Hrc -> -> ->
               |h e H0 Hd -> -> ->|n e Hn Hq He Hd -> -> ->].
  - eapply child_ok; eauto.
    + intros j Hj. rewrite <- Hf. auto.
    + by rewrite <- HF.
  - eapply child_failed; eauto.
    + intros j Hj. rewrite <- Hf. auto.
    + by rewrite <- HF.
  - eapply encoder_failed; eauto. by rewrite <- Hf.
  - eapply platform_failed with (n := n) (e := e); eauto.
    + intros j Hj. rewrite <- Hf. auto.
    + by rewrite <- Hf.
Qed.

Lemma is_serializable_allocated obj flag w bd p w1 sd q w2 :
  mkstemp w = (inr (bd, p), w1) → mkstemp w1 = (inr (sd, q), w2) →
  p ≠ q ∧ fs w !! p = None ∧ fs w !! q = None ∧
  fault_at w 0 = None ∧ fault_at w 1 = None ∧
  finished' obj flag p q w
    (exec (is_serializable obj flag) w).1 (exec (is_serializable obj flag) w).2.
Proof.
  intros H1 H2. rewrite (run_allocated _ _ _ _ _ _ _ _ _ H1 H2).
  assert (fault_at w 0 = None ∧ fault_at w 1 = None) as [Hf0 Hf1].
  { rewrite <- (fault_at_consumed w 0), <- !pending_fault_at.
    revert H1 H2. unfold mkstemp, next_fault.
    destruct (pending w) as [e|]; [done|].
    destruct (draw_name _ _) as [[x|] rest]; [|done]. intros [= <- <- <-].
    change (pending (set_fds _ (set_fs _ (set_rng rest (consumed w)))))
      with (pending (consumed w)).
    by destruct (pending (consumed w)). }
  apply mkstemp_ok in H1 as (Hp & Hbd & rest1 & ->).
  apply mkstemp_ok in H2 as (Hq & Hsd & rest2 & ->).
  world_simpl_in Hq. world_simpl_in Hsd. world_simpl.
  apply lookup_insert_None in Hq as [Hq Hpq].
  apply lookup_insert_None in Hsd as [Hsd Hds].
  split_and!; [done..|].
  change (wp' (after_alloc obj flag bd p sd q) (finished' obj flag p q w)
    {| fs := <[q:=""]> (<[p:=""]> (fs w)); fds := <[sd:=q]> (<[bd:=p]> (fds w));
       heap := heap w; rng := rest2; faults := tail (tail (faults w)); log := log w |}).
  unfold after_alloc, cleanup.
  apply wp_bind. eapply wp_close;
    [reflexivity|world_simpl; by rewrite lookup_insert_ne, lookup_insert_eq|].
  apply wp_bind. eapply wp_close;
    [reflexivity|world_simpl; by rewrite lookup_delete_ne, lookup_insert_eq|].
  world_simpl.
  replace (delete sd (delete bd (<[sd:=q]> (<[bd:=p]> (fds w))))) with (fds w); last first.
  { symmetry. apply map_eq. intros x. destruct (decide (x = sd)) as [->|Hxs].
    { by rewrite lookup_delete_eq. }
    rewrite lookup_delete_ne by done. destruct (decide (x = bd)) as [->|Hxb].
    { by rewrite lookup_delete_eq. }
    rewrite lookup_delete_ne by done. by rewrite !lookup_insert_ne. }
  apply wp_bind, wp_try_finally.
  eapply wp_mono.
  { apply guarded_spec; [exact Hpq|world_simpl..].
    - rewrite lookup_insert_ne, lookup_insert_eq; eauto.
    - rewrite lookup_insert_eq; eauto. }
  intros cg wg (Hframe & [cp Hcp] & [cq Hcq] & Hfds & Hheap & new & made & Hlog & Hfaults & Hout).
  world_simpl_in Hframe. world_simpl_in Hfds. world_simpl_in Hheap. world_simpl_in Hlog.
  world_simpl_in Hfaults.
  assert (outcome' obj flag p q (fs w) (heap w) (λ j, fault_at w (2 + j)) cg new made)
    as Hout'.
  { refine (outcome_transport _ _ _ _ _ _ _ _ _ _ _ _ _ _ Hout).
    - intros c1 c2. cbn [fs]. apply map_eq. intros x. rewrite !lookup_insert.
      repeat case_decide; done.
    - intros j. unfold fault_at. cbn [faults]. by rewrite !lookup_tail. }
  assert (pending wg = fault_at w (2 + made)) as Hp1.
  { unfold pending, fault_at. by rewrite head_lookup, Hfaults, !lookup_tail. }
  assert (∀ f, pending (set_fs f (consumed wg)) = fault_at w (3 + made)) as Hp2.
  { intros f. unfold pending, consumed, set_fs, set_faults, fault_at. cbn [faults].
    by rewrite head_lookup, lookup_tail, Hfaults, !lookup_tail. }
  assert (∀ x, x ≠ p → x ≠ q → fs wg !! x = fs w !! x) as Hframe'.
  { intros x Hxp Hxq. rewrite Hframe by done. by rewrite !lookup_insert_ne. }
  apply wp_bind. eapply wp_unlink; [exact Hcp| |].
  { intros e He. rewrite Hp1 in He. cbn [resume].
    unfold finished. world_simpl. split_and!; [done..|].
    exists cg, new, made. split; [done|]. rewrite He.
    split_and!; [done|eauto|eauto|by rewrite Hlog]. }
  intros Hn1. rewrite Hp1 in Hn1.
  eapply wp_unlink; [world_simpl; rewrite lookup_delete_ne; [exact Hcq|done]| |].
  { intros e He. rewrite Hp2 in He. cbn [resume].
    unfold finished. world_simpl. split_and!; [done|done| |].
    - intros x Hxp Hxq. rewrite lookup_delete_ne by done. by apply Hframe'.
    - exists cg, new, made. split; [done|]. rewrite Hn1, He.
      split_and!; [done|apply lookup_delete_eq| |by rewrite Hlog].
      rewrite lookup_delete_ne by done. eauto. }
  intros Hn2. rewrite Hp2 in Hn2. cbn [resume].
  assert (finished' obj flag p q w (final cg)
            (set_fs (delete q) (consumed (set_fs (delete p) (consumed wg))))) as Hfin.
  { unfold finished. world_simpl. split_and!; [done|done| |].
    - intros x Hxp Hxq. rewrite !lookup_delete_ne by done. by apply Hframe'.
    - exists cg, new, made. split; [done|]. rewrite Hn1, Hn2. split_and!; [done| |done].
      apply map_eq. intros x. destruct (decide (x = q)) as [->|Hxq].
      { by rewrite lookup_delete_eq. }
      rewrite lookup_delete_ne by done. destruct (decide (x = p)) as [->|Hxp].
      { by rewrite lookup_delete_eq. }
      rewrite lookup_delete_ne by done. by apply Hframe'. }
  destruct cg; exact Hfin.
Qed.

(** ** is_serializable: the claims *)

Ltac list_mem :=
  repeat match goal with
  | H : _ ∈ [] |- _ => by apply elem_of_nil in H
  | H : _ ∈ _ :: _ |- _ => apply elem_of_cons in H as [H|H]
  end.

Lemma final_caught flag e : final (caught flag e) = caught flag e.
Proof. unfold caught, verdict. by destruct (is_Exception e), flag. Qed.

Lemma final_verdict flag e : final (verdict flag e) = verdict flag e.
Proof. by destruct flag. Qed.

(** Every run of [is_serializable] has one of three shapes. *)
Lemma is_serializable_cases obj flag w :
  let r := exec (is_serializable obj flag) w in
  (∃ e, r.1 = Raise e ∧ fs r.2 = fs w ∧ heap r.2 = heap w ∧ log r.2 = Raised e :: log w) ∨
  (∃ e bd p w1, mkstemp w = (inr (bd, p), w1) ∧ r.1 = Raise e ∧
     fs r.2 = <[p:=""]> (fs w) ∧ heap r.2 = heap w ∧ log r.2 = Raised e :: log w) ∨
  (∃ bd p w1 sd q w2, mkstemp w = (inr (bd, p), w1) ∧ mkstemp w1 = (inr (sd, q), w2) ∧
     p ≠ q ∧ fs w !! p = None ∧ fs w !! q = None ∧
     finished' obj flag p q w r.1 r.2).
Proof.
  intros r. subst r.
  destruct (mkstemp w) as [[e|[bd p]] w1] eqn:H1.
  { left. rewrite (run_first_alloc_failed _ _ _ _ _ H1).
    apply mkstemp_failed in H1 as (? & ? & ? & ? & _). by exists e. }
  destruct (mkstemp w1) as [[e|[sd q]] w2] eqn:H2.
  - right; left. rewrite (run_second_alloc_failed _ _ _ _ _ _ _ _ H1 H2).
    exists e, bd, p, w1. split; [done|].
    apply mkstemp_ok in H1 as (_ & _ & rest & ->).
    apply mkstemp_failed in H2 as (? & ? & ? & ? & _). done.
  - right; right. exists bd, p, w1, sd, q, w2.
    destruct (is_serializable_allocated obj flag w bd p w1 sd q w2 H1 H2)
      as (? & ? & ? & _ & _ & Hfin).
    done.
Qed.

(** What the log shows of a call in which both files were allocated:
    the events of the [try] block and, on top, the exception of a
    failing [os.unlink], which is then the result. *)
Lemma finished_events obj flag p q w c w' :
  finished' obj flag p q w c w' →
  ∃ cg new made extra,
    outcome' obj flag p q (fs w) (heap w) (λ j, fault_at w (2 + j)) cg new made ∧
    log w' = (extra ++ new ++ log w)%list ∧
    ((extra = [] ∧ c = final cg) ∨ (∃ e, extra = [Raised e] ∧ c = Raise e)).
Proof.
  intros (_ & _ & _ & cg & new & made & Hout & Hfin).
  exists cg, new, made.
  destruct (fault_at w (2 + made)) as [e|].
  { destruct Hfin as (-> & _ & _ & ->). exists [Raised e]. split_and!; [done|done|]. eauto. }
  destruct (fault_at w (3 + made)) as [e|].
  { destruct Hfin as (-> & _ & _ & ->). exists [Raised e]. split_and!; [done|done|]. eauto. }
  destruct Hfin as (-> & _ & ->). exists []. split_and!; [done|done|]. by left.
Qed.

(** The [try] block ends in the one way that its calls allow. *)
Lemma outcome_child obj flag p q files h0 fault cg new made h bytes rc out :
  (∀ j, (j < 5)%nat → fault j = None) →
  cloudpickle_dumps h0 obj = (h, inr bytes) →
  shell (<[q := format template p]> (<[p := bytes]> files)) ("python " +:+ q) = (rc, out) →
  outcome' obj flag p q files h0 fault cg new made →
  made = 5%nat ∧
  cg = (if decide (rc = 0) then Normal ()
        else verdict flag (CalledProcessError rc ("python " +:+ q) out)) ∧
  new = (if decide (rc = 0) then [Exited ("python " +:+ q) 0 out]
         else [Raised (CalledProcessError rc ("python " +:+ q) out);
               Exited ("python " +:+ q) rc out]).
Proof.
  intros Hquiet Hd Hsh
    [h' bytes' out' _ Hd' Hsh' -> -> ->|h' bytes' rc' out' _ Hd' Hsh' Hrc -> -> ->
    |h' e _ Hd' -> -> ->|n e Hn _ He _ -> -> ->].
  - rewrite Hd in Hd'. injection Hd' as <- <-. rewrite Hsh in Hsh'. injection Hsh' as -> ->.
    by rewrite decide_True.
  - rewrite Hd in Hd'. injection Hd' as <- <-. rewrite Hsh in Hsh'. injection Hsh' as -> ->.
    by rewrite !decide_False.
  - congruence.
  - rewrite Hquiet in He by done. done.
Qed.

Lemma outcome_encoder obj flag p q files h0 fault cg new made h e :
  fault 0%nat = None →
  cloudpickle_dumps h0 obj = (h, inl e) →
  outcome' obj flag p q files h0 fault cg new made →
  made = 1%nat ∧ cg = caught flag e ∧ new = [Raised e].
Proof.
  intros H0 Hd
    [h' bytes' out' _ Hd' _ -> -> ->|h' bytes' rc' out' _ Hd' _ _ -> -> ->
    |h' e' _ Hd' -> -> ->|n e' Hn _ He Hd' -> -> ->]; [congruence..| |].
  - rewrite Hd in Hd'. by injection Hd' as <- <-.
  - destruct n as [|n]; [congruence|].
    destruct Hd' as (h' & bytes' & Hd'); [done|congruence].
Qed.

Lemma outcome_platform obj flag p q files h0 fault cg new made n e :
  (n < 5)%nat →
  (∀ j, (j < n)%nat → fault j = None) → fault n = Some e →
  (n ≠ 0%nat → ∃ h bytes, cloudpickle_dumps h0 obj = (h, inr bytes)) →
  outcome' obj flag p q files h0 fault cg new made →
  made = S n ∧ cg = caught flag e ∧ new = [Raised e].
Proof.
  intros Hn Hquiet He Hd
    [h' bytes' out' Hq' _ _ -> -> ->|h' bytes' rc' out' Hq' _ _ _ -> -> ->
    |h' e' H0' Hd' -> -> ->|n' e' Hn' Hq' He' _ -> -> ->].
  - rewrite Hq' in He by done. done.
  - rewrite Hq' in He by done. done.
  - destruct n as [|n]; [congruence|].
    destruct Hd as (h & bytes & Hd); [done|congruence].
  - destruct (decide (n' = n)) as [->|Hne].
    { rewrite He in He'. by injection He' as <-. }
    destruct (decide (n' < n)%nat) as [Hlt|Hge].
    + rewrite Hquiet in He' by done. done.
    + rewrite Hq' in He by lia. done.
Qed.

(** The result of a call whose [try] block ends in a known way and whose
    [finally] clause does not fail. *)
Lemma finished_result obj flag p q w c w' cg0 new0 made0 :
  finished' obj flag p q w c w' →
  (∀ cg new made,
     outcome' obj flag p q (fs w) (heap w) (λ j, fault_at w (2 + j)) cg new made →
     made = made0 ∧ cg = cg0 ∧ new = new0) →
  fault_at w (2 + made0) = None → fault_at w (3 + made0) = None →
  c = final cg0 ∧ fs w' = fs w ∧ log w' = (new0 ++ log w)%list.
Proof.
  intros (_ & _ & _ & cg & new & made & Hout & Hfin) Hdet H2 H3.
  destruct (Hdet _ _ _ Hout) as (-> & -> & ->). by rewrite H2, H3 in Hfin.
Qed.

(** The three ways in which the check of a call fails or passes, and
    what the call makes of each when its [finally] clause does not fail:
    the handlers decide. *)
Lemma call_result obj flag w bd p w1 sd q w2 :
  mkstemp w = (inr (bd, p), w1) → mkstemp w1 = (inr (sd, q), w2) →
  let r := exec (is_serializable obj flag) w in
  (∀ rc out, child_exits' obj p q w rc out →
     r.1 = final (if decide (rc = 0) then Normal ()
                  else verdict flag (CalledProcessError rc ("python " +:+ q) out)) ∧
     fs r.2 = fs w ∧
     log r.2 = ((if decide (rc = 0) then [Exited ("python " +:+ q) 0 out]
                 else [Raised (CalledProcessError rc ("python " +:+ q) out);
                       Exited ("python " +:+ q) rc out]) ++ log w)%list) ∧
  (∀ e, encoder_fails' obj w e →
     r.1 = caught flag e ∧ fs r.2 = fs w ∧ log r.2 = Raised e :: log w) ∧
  (∀ n e, try_block_fails' obj w n e →
     r.1 = caught flag e ∧ fs r.2 = fs w ∧ log r.2 = Raised e :: log w).
Proof.
  intros H1 H2 r. subst r.
  destruct (is_serializable_allocated obj flag w bd p w1 sd q w2 H1 H2)
    as (_ & _ & _ & _ & _ & Hfin).
  split_and!.
  - intros rc out (Hquiet & h & bytes & Hd & Hsh).
    eapply (finished_result _ _ _ _ _ _ _ _ _ 5%nat); [exact Hfin| |by apply Hquiet; lia..].
    intros cg new made. apply (outcome_child _ _ _ _ _ _ _ _ _ _ h bytes rc out); [|done..].
    intros j Hj. apply Hquiet. lia.
  - intros e (Hquiet & h & Hd). rewrite <- final_caught.
    eapply (finished_result _ _ _ _ _ _ _ _ [Raised e] 1%nat);
      [exact Hfin| |by apply Hquiet; lia..].
    intros cg new made. apply (outcome_encoder _ _ _ _ _ _ _ _ _ _ h e); [|done].
    apply Hquiet. lia.
  - intros n e (Hn & Hquiet & He & Hd & Hu1 & Hu2). rewrite <- final_caught.
    destruct (Nat.le_exists_sub 2 n) as (k & -> & _); [lia|].
    replace (k + 2)%nat with (2 + k)%nat in * by lia.
    eapply (finished_result _ _ _ _ _ _ _ _ [Raised e] (S k)).
    + exact Hfin.
    + intros cg new made. apply outcome_platform; [lia| |done|].
      * intros j Hj. apply Hquiet. lia.
      * intros Hk. apply Hd. lia.
    + by replace (2 + S k)%nat with (2 + k + 1)%nat by lia.
    + by replace (3 + S k)%nat with (2 + k + 2)%nat by lia.
Qed.

(** C1, as amended.  With [raise_on_error] false, once both temporary
    files are allocated, the call returns [True] exactly when the
    encoding succeeds, the platform fails none of its calls - the two
    [os.unlink] calls of the [finally] clause among them - and the child
    exits with code zero; and it returns [False] when, all else being
    equal, the child exits with another code.  The combined output of
    the child is then the [output] of the [CalledProcessError] that
    [check_output] raised, the one exception of the run; the handler
    drops it, and the [False] that is returned carries no text. *)
Theorem is_serializable_classifies_exit_code obj w bd p w1 sd q w2 :
  mkstemp w = (inr (bd, p), w1) → mkstemp w1 = (inr (sd, q), w2) →
  let r := exec (is_serializable obj false) w in
  (r.1 = Return true ↔ ∃ out, child_exits' obj p q w 0 out) ∧
  (∀ rc out, child_exits' obj p q w rc out → rc ≠ 0 →
     r.1 = Return false ∧
     log r.2 = ([Raised (CalledProcessError rc ("python " +:+ q) out);
                 Exited ("python " +:+ q) rc out] ++ log w)%list ∧
     output_of (CalledProcessError rc ("python " +:+ q) out) = Some out).
Proof.
  intros H1 H2 r.
  destruct (call_result obj false w bd p w1 sd q w2 H1 H2) as (Hchild & _ & _).
  fold r in Hchild. split.
  - split.
    + intros Htrue. subst r.
      destruct (is_serializable_allocated obj false w bd p w1 sd q w2 H1 H2)
        as (_ & _ & _ & Hf0 & Hf1 & _ & _ & _ & cg & new & made & Hout & Hfin).
      rewrite Htrue in Hfin.
      destruct (fault_at w (2 + made)) as [e|] eqn:Hu1; [by destruct Hfin|].
      destruct (fault_at w (3 + made)) as [e|] eqn:Hu2; [by destruct Hfin|].
      destruct Hfin as (Hc & _).
      destruct Hout as [h bytes out Hq Hd Hsh -> -> ->|h bytes rc out _ _ _ _ -> -> ->
                       |h e _ _ -> -> ->|n e _ _ _ _ -> -> ->].
      * exists out. split; [|by exists h, bytes].
        intros n Hn. destruct n as [|[|n]]; [done..|].
        destruct (decide (n < 5)%nat) as [Hlt|Hge]; [by apply (Hq n)|].
        destruct (decide (n = 5%nat)) as [->|Hne]; [done|].
        by replace n with 6%nat by lia.
      * done.
      * unfold caught in Hc. by destruct (is_Exception e).
      * unfold caught in Hc. by destruct (is_Exception e).
    + intros (out & Hex). destruct (Hchild 0 out Hex) as (-> & _). done.
  - intros rc out Hex Hrc. destruct (Hchild rc out Hex) as (-> & _ & ->).
    by rewrite !decide_False.
Qed.

Lemma run_cleanup p q w cp cq :
  p ≠ q → fs w !! p = Some cp → fs w !! q = Some cq →
  exec (cleanup p q) w =
    match pending w with
    | Some e => (Raise e, emit (Raised e) (consumed w))
    | None =>
        match pending (set_fs (delete p) (consumed w)) with
        | Some e => (Raise e, emit (Raised e) (consumed (set_fs (delete p) (consumed w))))
        | None => (Normal (), set_fs (delete q) (consumed (set_fs (delete p) (consumed w))))
        end
    end.
Proof.
  intros Hpq Hp Hq. unfold cleanup. rewrite run_bind, run_call. cbn [handle].
  unfold unlink, next_fault. destruct (pending w) as [e|]; [done|].
  change (fs (consumed w)) with (fs w). rewrite Hp. cbn [answer fst snd].
  rewrite run_call. cbn [handle]. unfold unlink, next_fault.
  destruct (pending (set_fs (delete p) (consumed w))) as [e|]; [done|].
  change (fs (consumed (set_fs (delete p) (consumed w)))) with (delete p (fs w)).
  rewrite lookup_delete_ne by done. by rewrite Hq.
Qed.

(** A call in which both files were allocated is its [try] statement
    followed by its [finally] clause. *)
Lemma allocated_split obj flag w bd p w1 sd q w2 :
  mkstemp w = (inr (bd, p), w1) → mkstemp w1 = (inr (sd, q), w2) →
  let w4 := set_fds (delete sd) (set_fds (delete bd) w2) in
  try_block_end' obj flag bd p sd q w2 = exec (guarded obj flag p q) w4 ∧
  exec (is_serializable obj flag) w =
    (let '(cg, wg) := exec (guarded obj flag p q) w4 in
     let '(c2, w') := exec (cleanup p q) wg in
     (final (resume cg c2), w')) ∧
  p ≠ q ∧ fs w !! p = None ∧ fs w !! q = None ∧
  (∀ x, x ≠ p → x ≠ q → fs w4 !! x = fs w !! x) ∧
  is_Some (fs w4 !! p) ∧ is_Some (fs w4 !! q).
Proof.
  intros H1 H2 w4. subst w4. rewrite (run_allocated _ _ _ _ _ _ _ _ _ H1 H2).
  apply mkstemp_ok in H1 as (Hp & Hbd & rest1 & ->).
  apply mkstemp_ok in H2 as (Hq & Hsd & rest2 & Hw2).
  world_simpl_in Hq. world_simpl_in Hsd.
  apply lookup_insert_None in Hq as [Hq Hpq].
  apply lookup_insert_None in Hsd as [Hsd Hds].
  assert (fs w2 = <[q:=""]> (<[p:=""]> (fs w))) as Hfs2 by (by rewrite Hw2).
  assert (fds w2 !! bd = Some p) as Hbd2.
  { rewrite Hw2. world_simpl. by rewrite lookup_insert_ne, lookup_insert_eq. }
  assert (fds (set_fds (delete bd) w2) !! sd = Some q) as Hsd2.
  { rewrite Hw2. world_simpl. by rewrite lookup_delete_ne, lookup_insert_eq. }
  clear Hw2. unfold try_block_end, after_alloc.
  rewrite !run_bind, (run_close (OsClose bd) bd p w2 eq_refl Hbd2). cbv beta iota.
  rewrite !run_bind, (run_close (OsClose sd) sd q _ eq_refl Hsd2). cbv beta iota.
  change (fs (set_fds (delete sd) (set_fds (delete bd) w2))) with (fs w2). rewrite Hfs2.
  split_and!; [done| |done..| | |].
  - rewrite run_bind, run_try_finally.
    destruct (exec (guarded obj flag p q) _) as [cg wg].
    destruct (exec (cleanup p q) wg) as [c2 w']. cbn [fst snd].
    by destruct cg as [[]|?|?], c2 as [[]|?|?].
  - intros x Hxp Hxq. by rewrite !lookup_insert_ne.
  - rewrite lookup_insert_ne, lookup_insert_eq by done. eauto.
  - rewrite lookup_insert_eq. eauto.
Qed.



(** C4, as amended.  With [raise_on_error] true, once both temporary
    files are allocated and provided the [finally] clause does not fail,
    a value that fails the check makes the call raise, and what it raises
    is the exception of the failing step as it is.  When the child exits
    with a code other than zero it is the [CalledProcessError] of
    [check_output], whose [output] is the combined output of the child,
    no more and no less; when the encoder raises, it is the exception of
    the encoder; when a platform call of the [try] block fails, it is
    the exception of that call. *)
Theorem is_serializable_raises_verbatim obj w bd p w1 sd q w2 :
  mkstemp w = (inr (bd, p), w1) → mkstemp w1 = (inr (sd, q), w2) →
  let r := exec (is_serializable obj true) w in
  (∀ rc out, child_exits' obj p q w rc out → rc ≠ 0 →
     r.1 = Raise (CalledProcessError rc ("python " +:+ q) out) ∧
     output_of (CalledProcessError rc ("python " +:+ q) out) = Some out ∧
     log r.2 = ([Raised (CalledProcessError rc ("python " +:+ q) out);
                 Exited ("python " +:+ q) rc out] ++ log w)%list) ∧
  (∀ e, encoder_fails' obj w e → r.1 = Raise e ∧ log r.2 = Raised e :: log w) ∧
  (∀ n e, try_block_fails' obj w n e → r.1 = Raise e ∧ log r.2 = Raised e :: log w).
Proof.
  intros H1 H2 r.
  destruct (call_result obj true w bd p w1 sd q w2 H1 H2) as (Hchild & Henc & Hplat).
  fold r in Hchild, Henc, Hplat. split_and!.
  - intros rc out Hex Hrc. destruct (Hchild rc out Hex) as (-> & _ & ->).
    by rewrite !decide_False.
  - intros e Hfail. destruct (Henc e Hfail) as (-> & _ & ->).
    unfold caught. by destruct (is_Exception e).
  - intros n e Hfail. destruct (Hplat n e Hfail) as (-> & _ & ->).
    unfold caught. by destruct (is_Exception e).
Qed.


(** C10.  When the second [mkstemp] raises, the call raises that
    exception and the payload file, which the first [mkstemp] created,
    is still there. *)
Theorem second_allocation_failure_leaves_payload_file obj flag w bd p w1 e w2 :
  mkstemp w = (inr (bd, p), w1) → mkstemp w1 = (inl e, w2) →
  let r := exec (is_serializable obj flag) w in
  r.1 = Raise e ∧ fs w !! p = None ∧ fs r.2 !! p = Some "".
Proof.
  intros H1 H2 r. subst r. rewrite (run_second_alloc_failed _ _ _ _ _ _ _ _ H1 H2).
  apply mkstemp_ok in H1 as (Hp & _ & rest & ->).
  apply mkstemp_failed in H2 as (Hfs & _). cbn [fst snd]. rewrite Hfs.
  split_and!; [done|done|]. apply lookup_insert_eq.
Qed.

(** ** is_serializable: further properties of a call *)


(** X2.  When the first [mkstemp] raises, the call raises that exception and
    has done nothing else: no file, no descriptor, no change of the
    heap. *)
Theorem first_allocation_failure_leaves_nothing obj flag w e w1 :
  mkstemp w = (inl e, w1) →
  let r := exec (is_serializable obj flag) w in
  r.1 = Raise e ∧ fs r.2 = fs w ∧ fds r.2 = fds w ∧ heap r.2 = heap w ∧
  exits (log r.2) = exits (log w).
Proof.
  intros H1 r. subst r. rewrite (run_first_alloc_failed _ _ _ _ _ H1).
  apply mkstemp_failed in H1 as (Hfs & Hfds & Hheap & Hlog & _).
  cbn [fst snd]. by rewrite Hlog.
Qed.

(** X3.  When the second [mkstemp] raises, the descriptor that the first one
    opened is still open when the call raises: [os.close(bd)] comes
    after both allocations. *)
Theorem second_allocation_failure_leaves_descriptor_open obj flag w bd p w1 e w2 :
  mkstemp w = (inr (bd, p), w1) → mkstemp w1 = (inl e, w2) →
  fds w !! bd = None ∧ fds (exec (is_serializable obj flag) w).2 !! bd = Some p.
Proof.
  intros H1 H2. rewrite (run_second_alloc_failed _ _ _ _ _ _ _ _ H1 H2).
  apply mkstemp_ok in H1 as (_ & Hbd & rest & ->).
  apply mkstemp_failed in H2 as (_ & Hfds & _). cbn [fst snd]. rewrite Hfds.
  split; [done|]. apply lookup_insert_eq.
Qed.

(** X4.  What the child is given.  Whenever a call runs a child, the command
    is [python] on the script file, and the shell finds the directory as
    it was before the call plus two new files: the payload file holding
    exactly the bytes the encoder produced for the object, and the
    script file holding the template filled with the payload's name. *)
Theorem child_reads_own_payload obj flag w :
  let r := exec (is_serializable obj flag) w in
  ∃ new, log r.2 = (new ++ log w)%list ∧
    ∀ cmd rc out, Exited cmd rc out ∈ new →
      ∃ p q h bytes,
        cmd = "python " +:+ q ∧ p ≠ q ∧ fs w !! p = None ∧ fs w !! q = None ∧
        cloudpickle_dumps (heap w) obj = (h, inr bytes) ∧
        shell (<[q := format template p]> (<[p := bytes]> (fs w))) cmd = (rc, out).
Proof.
  intros r. subst r.
  destruct (is_serializable_cases obj flag w)
    as [(e & _ & _ & _ & Hlog)|[(e & bd & p & w1 & _ & _ & _ & _ & Hlog)|
        (bd & p & w1 & sd & q & w2 & _ & _ & Hpq & Hp & Hq & Hfin)]].
  { exists [Raised e]. split; [done|]. intros cmd rc out Hin. list_mem. done. }
  { exists [Raised e]. split; [done|]. intros cmd rc out Hin. list_mem. done. }
  destruct (finished_events _ _ _ _ _ _ _ Hfin) as (cg & new & made & extra & Hout & Hlog & Hex).
  exists (extra ++ new)%list. split; [by rewrite <- (assoc_L (++))|]. intros cmd rc out Hin.
  assert (Exited cmd rc out ∈ new) as Hnew.
  { apply elem_of_app in Hin as [Hin|Hin]; [|done].
    destruct Hex as [[-> _]|(e & -> & _)]; list_mem. done. }
  clear Hin.
  destruct Hout as [h bytes out' _ Hd Hsh -> -> ->|h bytes rc' out' _ Hd Hsh Hrc -> -> ->
                   |h e _ _ -> -> ->|n e _ _ _ _ -> -> ->].
  - list_mem. injection Hnew as -> -> ->. by exists p, q, h, bytes.
  - list_mem; [done|]. injection Hnew as -> -> ->. by exists p, q, h, bytes.
  - list_mem. done.
  - list_mem. done.
Qed.

(** X5.  A call runs at most one child, and none at all when the encoder
    fails: the script is not even run then. *)
Theorem at_most_one_child obj flag w :
  let r := exec (is_serializable obj flag) w in
  ∃ new, log r.2 = (new ++ log w)%list ∧
    (List.length (exits new) ≤ 1)%nat ∧
    (∀ h e, cloudpickle_dumps (heap w) obj = (h, inl e) → exits new = []).
Proof.
  intros r.
  destruct (is_serializable_cases obj flag w)
    as [(e & _ & _ & _ & Hlog)|[(e & bd & p & w1 & _ & _ & _ & _ & Hlog)|
        (bd & p & w1 & sd & q & w2 & _ & _ & _ & _ & _ & Hfin)]];
    fold r in Hlog || fold r in Hfin.
  { exists [Raised e]. split_and!; [done|cbn; lia|done]. }
  { exists [Raised e]. split_and!; [done|cbn; lia|done]. }
  destruct (finished_events _ _ _ _ _ _ _ Hfin) as (cg & new & made & extra & Hout & Hlog & Hex).
  exists (extra ++ new)%list. split; [by rewrite <- (assoc_L (++))|].
  assert (exits (extra ++ new) = exits new) as ->.
  { destruct Hex as [[-> _]|(e & -> & _)]; done. }
  destruct Hout as [h bytes out _ Hd Hsh -> -> ->|h bytes rc out _ Hd Hsh Hrc -> -> ->
                   |h e _ _ -> -> ->|n e _ _ _ _ -> -> ->].
  - split; [cbn; lia|]. intros h' e He. congruence.
  - split; [cbn; lia|]. intros h' e He. congruence.
  - split; [cbn; lia|done].
  - split; [cbn; lia|done].
Qed.


Lemma guarded_modes obj p q w :
  (exec (guarded obj true p q) w).2 = (exec (guarded obj false p q) w).2 ∧
  (exec (guarded obj false p q) w).1 = collapse (exec (guarded obj true p q) w).1.
Proof.
  unfold guarded, spawn_block. rewrite !run_try_except, !run_bind.
  destruct (exec (with_open p _) w) as [[[]|b|e] w1].
  - rewrite !run_bind. destruct (exec (script_block p q) w1) as [[[]|b|e] w2].
    + rewrite !run_try_except.
      destruct (exec (call (CheckOutput _) ≫= _) w2) as [[[]|b|e] w3]; simpl; [done..|].
      destruct e; simpl; done.
    + done.
    + destruct e; simpl; done.
  - done.
  - destruct e; simpl; done.
Qed.

Lemma is_serializable_modes obj w :
  (exec (is_serializable obj true) w).2 = (exec (is_serializable obj false) w).2 ∧
  block_report (exec (is_serializable obj true) w).1 (exec (is_serializable obj false) w).1.
Proof.
  destruct (mkstemp w) as [[e|[bd p]] w1] eqn:H1.
  { by rewrite !(run_first_alloc_failed _ _ _ _ _ H1). }
  destruct (mkstemp w1) as [[e|[sd q]] w2] eqn:H2.
  { by rewrite !(run_second_alloc_failed _ _ _ _ _ _ _ _ H1 H2). }
  destruct (allocated_split obj true w bd p w1 sd q w2 H1 H2) as (_ & -> & _).
  destruct (allocated_split obj false w bd p w1 sd q w2 H1 H2) as (_ & -> & _).
  destruct (guarded_modes obj p q (set_fds (delete sd) (set_fds (delete bd) w2))) as [Hw Hc].
  destruct (exec (guarded obj true p q) _) as [ct wt].
  destruct (exec (guarded obj false p q) _) as [cf wf]. simpl in Hw, Hc. subst wf cf.
  destruct (exec (cleanup p q) wt) as [[[]|b|e] w5]; simpl; [|done..].
  destruct ct as [[]|bt|et]; simpl; [done..|]. by destruct (is_Exception et) eqn:Hexc.
Qed.


(** X8.  On a platform that injects no failure, once both files are
    allocated, the answer is decided by the child alone, run on the
    payload and the script of this call: [True] when it exits with zero,
    and otherwise [False] or the [CalledProcessError] with the exit code
    and the output of the child. *)
Theorem is_serializable_decided_by_child obj flag w bd p w1 sd q w2 h bytes rc out :
  mkstemp w = (inr (bd, p), w1) → mkstemp w1 = (inr (sd, q), w2) →
  (∀ e, Some e ∉ faults w) →
  cloudpickle_dumps (heap w) obj = (h, inr bytes) →
  shell (<[q := format template p]> (<[p := bytes]> (fs w))) ("python " +:+ q) = (rc, out) →
  (exec (is_serializable obj flag) w).1 =
    if decide (rc = 0) then Return true
    else verdict flag (CalledProcessError rc ("python " +:+ q) out).
Proof.
  intros H1 H2 Hfaults Hd Hsh.
  destruct (call_result obj flag w bd p w1 sd q w2 H1 H2) as (Hchild & _ & _).
  destruct (Hchild rc out) as (-> & _).
  { split; [|by exists h, bytes]. intros n _. by apply no_fault_at. }
  case_decide; [done|]. apply final_verdict.
Qed.

(** X9.  On a platform that injects no failure, once both files are
    allocated, an exception of the encoder is what the call reports:
    raised as it is when [raise_on_error] is true or when it is not an
    [Exception], [False] otherwise; and no child is run. *)
Theorem encoding_failure_is_reported obj flag w bd p w1 sd q w2 h e :
  mkstemp w = (inr (bd, p), w1) → mkstemp w1 = (inr (sd, q), w2) →
  (∀ e', Some e' ∉ faults w) →
  cloudpickle_dumps (heap w) obj = (h, inl e) →
  let r := exec (is_serializable obj flag) w in
  r.1 = caught flag e ∧ log r.2 = Raised e :: log w.
Proof.
  intros H1 H2 Hfaults Hd r. subst r.
  destruct (call_result obj flag w bd p w1 sd q w2 H1 H2) as (_ & Henc & _).
  destruct (Henc e) as (-> & _ & ->); [|done].
  split; [|by exists h]. intros n _. by apply no_fault_at.
Qed.

(** ** Several calls at once *)

#[local] Abbreviation step_prog' := (step_prog cloudpickle_dumps shell).
#[local] Abbreviation advance' := (advance cloudpickle_dumps shell).
#[local] Abbreviation next_record' := (next_record cloudpickle_dumps shell).
#[local] Abbreviation step_record' := (step_record cloudpickle_dumps shell).
#[local] Abbreviation journal' := (journal cloudpickle_dumps shell).
#[local] Abbreviation encoded' := (encoded cloudpickle_dumps).
#[local] Abbreviation origin' := (origin cloudpickle_dumps).
#[local] Abbreviation holds_payload' := (holds_payload cloudpickle_dumps).
#[local] Abbreviation grounded' := (grounded cloudpickle_dumps shell).
#[local] Abbreviation own_verdict' := (own_verdict cloudpickle_dumps shell).
#[local] Abbreviation local_ok' := (local_ok cloudpickle_dumps shell).
#[local] Abbreviation step_ok' := (step_ok cloudpickle_dumps shell).
#[local] Abbreviation step_thread' := (step_thread cloudpickle_dumps shell).
#[local] Abbreviation run_threads' := (run_threads cloudpickle_dumps shell).
#[local] Abbreviation sys_inv' := (sys_inv cloudpickle_dumps shell).
Implicit Types (s : system Value) (st : stage) (J : list (record (Value:=Value))).

Lemma code_step obj raise_on_error st w :
  step_prog' (code obj raise_on_error st) w =
    let '(st', w', lab) := advance' obj raise_on_error st w in
    (code obj raise_on_error st', w', lab).
Proof.
  destruct st; cbn [code advance].
  - unfold step_prog. simpl. destruct (mkstemp w) as [[e|[bd p]] w1]; reflexivity.
  - unfold step_prog. simpl. destruct (mkstemp w) as [[e|[sd q]] w1]; reflexivity.
  - unfold step_prog. simpl. destruct (close bd w) as [[e|[]] w1]; reflexivity.
  - unfold step_prog. simpl. destruct (close sd w) as [[e|[]] w1]; reflexivity.
  - unfold step_prog. simpl. destruct (open p w) as [[e|bf] w1]; [|reflexivity].
    destruct e, raise_on_error; reflexivity.
  - unfold step_prog. simpl. destruct (dump _ obj bf w) as [[e|[]] w1]; reflexivity.
  - unfold step_prog. destruct c as [[]|b|e]; simpl.
    + destruct (close bf w) as [[e|[]] w1]; [|reflexivity].
      destruct e, raise_on_error; reflexivity.
    + destruct (close bf w) as [[e|[]] w1]; [|reflexivity].
      destruct e, raise_on_error; reflexivity.
    + destruct (close bf w) as [[e'|[]] w1].
      * destruct e', raise_on_error; reflexivity.
      * destruct e, raise_on_error; reflexivity.
  - unfold step_prog. simpl. destruct (open q w) as [[e|sf] w1]; [|reflexivity].
    destruct e, raise_on_error; reflexivity.
  - unfold step_prog. simpl. destruct (write sf _ w) as [[e|[]] w1]; reflexivity.
  - unfold step_prog. destruct c as [[]|b|e]; simpl.
    + destruct (close sf w) as [[e|[]] w1]; [|reflexivity].
      destruct e, raise_on_error; reflexivity.
    + destruct (close sf w) as [[e|[]] w1]; [|reflexivity].
      destruct e, raise_on_error; reflexivity.
    + destruct (close sf w) as [[e'|[]] w1].
      * destruct e', raise_on_error; reflexivity.
      * destruct e, raise_on_error; reflexivity.
  - unfold step_prog. simpl. destruct (check_output shell _ w) as [[e|out] w1]; [|reflexivity].
    destruct e, raise_on_error; reflexivity.
  - unfold step_prog. destruct c as [[]|b|e]; simpl;
      destruct (unlink p w) as [[e'|[]] w1]; reflexivity.
  - unfold step_prog. destruct c as [[]|b|e]; simpl;
      destruct (unlink q w) as [[e'|[]] w1]; reflexivity.
  - reflexivity.
Qed.

(** The call a thread makes at a program point. *)
Lemma next_record_code obj flag st w :
  next_record' (code obj flag st) w =
    match st with
    | AtAlloc1 | AtAlloc2 _ _ => [Made Mkstemp w (mkstemp w).1]
    | AtClose1 bd _ _ _ => [Made (OsClose bd) w (close bd w).1]
    | AtClose2 _ sd _ => [Made (OsClose sd) w (close sd w).1]
    | AtOpenPayload p _ => [Made (Open p) w (open p w).1]
    | AtDump _ _ bf => [Made (Dump obj bf) w (dump cloudpickle_dumps obj bf w).1]
    | AtClosePayload _ _ bf _ => [Made (FileClose bf) w (close bf w).1]
    | AtOpenScript _ q => [Made (Open q) w (open q w).1]
    | AtWrite p _ sf =>
        [Made (Write sf (format template p)) w (write sf (format template p) w).1]
    | AtCloseScript _ _ sf _ => [Made (FileClose sf) w (close sf w).1]
    | AtSpawn _ q =>
        [Made (CheckOutput ("python " +:+ q)) w (check_output shell ("python " +:+ q) w).1]
    | AtUnlink1 p _ _ => [Made (Unlink p) w (unlink p w).1]
    | AtUnlink2 q _ => [Made (Unlink q) w (unlink q w).1]
    | Finished _ => []
    end.
Proof. destruct st; try destruct c as [[]|?|?]; reflexivity. Qed.

Lemma mkstemp_effect w d p w1 :
  mkstemp w = (inr (d, p), w1) →
  fs w !! p = None ∧ fds w !! d = None ∧
  fs w1 = <[p:=""]> (fs w) ∧ fds w1 = <[d:=p]> (fds w) ∧ faults w1 = tail (faults w).
Proof.
  intros Hm. apply mkstemp_ok in Hm as (? & ? & rest & ->). done.
Qed.

Ltac crush :=
  try done; intros;
  try match goal with
  | H : Made _ _ _ ∈ _ |- _ => unfold fail in H; cbn [fst] in H
  end;
  repeat match goal with
  | H : is_Some _ |- _ => let v := fresh "v" in destruct H as [v H]
  | H : holds_payload _ _ _ _ _ |- _ =>
      let b := fresh "bytes" in let Hb := fresh "Hb" in destruct H as (b & Hb & H)
  end;
  try match goal with
  | |- holds_payload _ _ _ _ _ => unfold holds_payload; cbn [fs]; eexists; split; [eassumption|]
  end;
  rewrite ?lookup_insert, ?lookup_delete, ?lookup_alter;
  repeat (case_decide; simplify_eq);
  repeat match goal with
  | H : ?m !! ?k = _ |- context [?m !! ?k] => rewrite H
  end;
  cbn [fmap option_fmap option_map];
  try done; try (by eauto); try set_solver.

Ltac step_goals Hfs Hfds Hfaults :=
  unfold step_ok; cbn [local_ok owned_paths owned_fds after_with];
  rewrite ?Hfs, ?Hfds, ?Hfaults; world_simpl; split_and!.

(** What a thread has done stays done. *)
Lemma encoded_mono J J' obj bytes :
  (∀ r, r ∈ J → r ∈ J') → encoded' J obj bytes → encoded' J' obj bytes.
Proof. intros Hsub (bf & w & h & Hin & Hd). exists bf, w, h. auto. Qed.

Lemma origin_mono J J' obj e :
  (∀ r, r ∈ J → r ∈ J') → origin' J obj e → origin' J' obj e.
Proof.
  intros Hsub [(X & op & w & Hin & Hout & Hp)|(bf & w & h & Hin & Hd)].
  - left. exists X, op, w. auto.
  - right. exists bf, w, h. auto.
Qed.

Lemma escaped_mono J J' e : (∀ r, r ∈ J → r ∈ J') → escaped J e → escaped J' e.
Proof. intros Hsub (r & Hin & Hout & He). exists r. auto. Qed.

Lemma grounded_mono J J' obj flag c :
  (∀ r, r ∈ J → r ∈ J') → grounded' J obj flag c → grounded' J' obj flag c.
Proof.
  intros Hsub [p q bytes w out He Hin Hp Hq Hsh|p q bytes w rc out He Hin Hp Hq Hsh Hrc
              |e Ho|e He].
  - eapply own_ok; eauto using encoded_mono.
  - eapply own_failed; eauto using encoded_mono.
  - eapply own_call_failed; eauto using origin_mono.
  - eapply own_escaped; eauto using escaped_mono.
Qed.

Lemma local_ok_mono J J' obj flag st w :
  (∀ r, r ∈ J → r ∈ J') → local_ok' J obj flag st w → local_ok' J' obj flag st w.
Proof.
  intros Hsub. destruct st; cbn [local_ok]; unfold holds_payload; try done.
  - intros (? & ? & ? & ? & Hc). split_and!; [done..|].
    destruct c as [[]|?|?]; [|done|by eapply origin_mono].
    destruct Hc as (bytes & ? & ?). eauto using encoded_mono.
  - intros (? & (bytes & ? & ?) & ?). eauto 10 using encoded_mono.
  - intros (? & (bytes & ? & ?) & ? & ?). eauto 10 using encoded_mono.
  - intros (? & (bytes & ? & ?) & ? & ? & Hc). split_and!; [done|eauto using encoded_mono|done..|].
    destruct c as [[]|?|?]; [done|done|by eapply origin_mono].
  - intros (? & (bytes & ? & ?) & ?). eauto 10 using encoded_mono.
  - intros (? & ? & ? & ?). eauto 10 using grounded_mono.
  - intros (? & ?). eauto using grounded_mono.
  - eauto using grounded_mono.
Qed.

Lemma own_caught J obj flag e :
  origin' J obj e → grounded' J obj flag (final (caught flag e)).
Proof. intros Ho. rewrite final_caught. by apply own_call_failed. Qed.

Lemma own_fault J obj flag {X} (op : Op X) w e :
  Made op w (inl e) ∈ J → outside_try (Made op w (inl e)) = false → pending w = Some e →
  grounded' J obj flag (final (caught flag e)).
Proof. intros Hin Hout Hp. apply own_caught. left. by exists X, op, w. Qed.

Lemma own_escape J obj flag r e :
  r ∈ J → outside_try r = true → raised r = Some e → grounded' J obj flag (Raise e).
Proof. intros Hin Hout He. apply own_escaped. by exists r. Qed.

(** One step of a thread, [J'] being its journal with the step in it. *)
Lemma advance_ok J J' obj flag st w st' w' lab :
  (∀ r, r ∈ J → r ∈ J') →
  (∀ r, r ∈ next_record' (code obj flag st) w → r ∈ J') →
  local_ok' J obj flag st w →
  advance' obj flag st w = (st', w', lab) →
  step_ok' J' obj flag st w st' w' lab.
Proof.
  intros Hsub Hrec Hok Hadv. apply (local_ok_mono _ _ _ _ _ _ Hsub) in Hok. clear Hsub J.
  rewrite next_record_code in Hrec.
  destruct st; cbn [advance local_ok] in *;
    try (pose proof (Hrec _ ltac:(left)) as Hmade; clear Hrec).
  - destruct (mkstemp w) as [[e|[bd p]] w1] eqn:Hm; injection Hadv as <- <- <-.
    + apply mkstemp_failed in Hm as (Hfs & Hfds & _ & _ & Hfaults & Hori).
      step_goals Hfs Hfds Hfaults; crush. by eapply own_escape.
    + apply mkstemp_effect in Hm as (Hp & Hbd & Hfs & Hfds & Hfaults).
      step_goals Hfs Hfds Hfaults; crush.
  - destruct Hok as (Hp & Hbd).
    destruct (mkstemp w) as [[e|[sd q]] w1] eqn:Hm; injection Hadv as <- <- <-.
    + apply mkstemp_failed in Hm as (Hfs & Hfds & _ & _ & Hfaults & Hori).
      step_goals Hfs Hfds Hfaults; crush. by eapply own_escape.
    + apply mkstemp_effect in Hm as (Hq & Hsd & Hfs & Hfds & Hfaults).
      step_goals Hfs Hfds Hfaults; crush.
  - destruct Hok as (Hpq & Hds & Hp & Hq & [x Hbd] & Hsd).
    unfold close in Hadv. rewrite Hbd in Hadv. injection Hadv as <- <- <-.
    step_goals Hbd Hbd Hbd; crush.
  - destruct Hok as (Hpq & Hp & Hq & [x Hsd]).
    unfold close in Hadv. rewrite Hsd in Hadv. injection Hadv as <- <- <-.
    step_goals Hsd Hsd Hsd; crush.
  - destruct Hok as (Hpq & Hp & Hq).
    unfold open, next_fault in Hadv, Hmade. destruct (pending w) as [e|] eqn:Hpend;
      injection Hadv as <- <- <-.
    + step_goals Hpend Hpend Hpend; crush. by eapply own_fault.
    + pose proof (new_fd_fresh (consumed w)) as Hnew. world_simpl_in Hnew.
      step_goals Hpend Hpend Hpend; crush.
  - destruct Hok as (Hpq & Hp & Hq & Hbf).
    unfold dump, write, next_fault in Hadv, Hmade.
    destruct (cloudpickle_dumps (heap w) obj) as [h [e|bytes]] eqn:Hdump.
    + injection Hadv as <- <- <-. step_goals Hbf Hbf Hbf; crush. right. eauto.
    + change (pending (set_heap h w)) with (pending w) in Hadv, Hmade.
      destruct (pending w) as [e|] eqn:Hpend.
      * injection Hadv as <- <- <-. step_goals Hbf Hbf Hbf; crush.
        left. eexists _, _, w. eauto.
      * world_simpl_in Hadv. world_simpl_in Hmade. rewrite Hbf in Hadv, Hmade.
        injection Hadv as <- <- <-.
        step_goals Hbf Hbf Hbf; crush.
        exists bytes. split; [by exists bf, w, h|].
        world_simpl. by rewrite lookup_alter_eq, Hp.
  - destruct Hok as (Hpq & Hp & Hq & [x Hbf] & Hc).
    unfold close in Hadv. rewrite Hbf in Hadv. injection Hadv as <- <- <-.
    destruct c as [[]|b|e]; [| done |].
    + step_goals Hbf Hbf Hbf; crush.
    + step_goals Hbf Hbf Hbf; crush. by apply own_caught.
  - destruct Hok as (Hpq & Hp & Hq).
    unfold open, next_fault in Hadv, Hmade. destruct (pending w) as [e|] eqn:Hpend;
      injection Hadv as <- <- <-.
    + step_goals Hpend Hpend Hpend; crush. by eapply own_fault.
    + pose proof (new_fd_fresh (consumed w)) as Hnew. world_simpl_in Hnew.
      step_goals Hpend Hpend Hpend; crush.
  - destruct Hok as (Hpq & Hp & Hq & Hsf).
    unfold write, next_fault in Hadv, Hmade. destruct (pending w) as [e|] eqn:Hpend.
    + injection Hadv as <- <- <-. step_goals Hsf Hsf Hsf; crush.
      left. eexists _, _, w. eauto.
    + world_simpl_in Hadv. rewrite Hsf in Hadv. injection Hadv as <- <- <-.
      step_goals Hsf Hsf Hsf; crush.
  - destruct Hok as (Hpq & Hp & Hq & [x Hsf] & Hc).
    unfold close in Hadv. rewrite Hsf in Hadv. injection Hadv as <- <- <-.
    destruct c as [[]|b|e]; [| done |].
    + step_goals Hsf Hsf Hsf; crush.
    + step_goals Hsf Hsf Hsf; crush. by apply own_caught.
  - destruct Hok as (Hpq & Hp & Hq).
    unfold check_output, next_fault in Hadv, Hmade.
    destruct (pending w) as [e|] eqn:Hpend.
    + injection Hadv as <- <- <-. step_goals Hpend Hpend Hpend; crush. by eapply own_fault.
    + change (fs (consumed w)) with (fs w) in Hadv, Hmade.
      destruct (shell (fs w) ("python " +:+ q)) as [rc out] eqn:Hsh.
      destruct (decide (rc = 0)) as [->|Hrc]; injection Hadv as <- <- <-.
      * step_goals Hpend Hpend Hpend; crush. by eapply own_ok.
      * step_goals Hpend Hpend Hpend; crush.
        rewrite final_caught. unfold caught. cbn [is_Exception]. by eapply own_failed.
  - destruct Hok as (Hpq & [x Hp] & Hq & Hc).
    unfold unlink, next_fault in Hadv, Hmade. destruct (pending w) as [e|] eqn:Hpend.
    + injection Hadv as <- <- <-. step_goals Hp Hp Hp; crush.
      by eapply own_escape.
    + change (fs (consumed w)) with (fs w) in Hadv. rewrite Hp in Hadv.
      injection Hadv as <- <- <-. step_goals Hp Hp Hp; crush.
  - destruct Hok as ([x Hq] & Hc).
    unfold unlink, next_fault in Hadv, Hmade. destruct (pending w) as [e|] eqn:Hpend.
    + injection Hadv as <- <- <-. step_goals Hq Hq Hq; crush.
      by eapply own_escape.
    + change (fs (consumed w)) with (fs w) in Hadv. rewrite Hq in Hadv.
      injection Hadv as <- <- <-. step_goals Hq Hq Hq; crush.
  - injection Hadv as <- <- <-. step_goals Hok Hok Hok; crush.
Qed.

Lemma owned_fds_open J obj flag st w d :
  local_ok' J obj flag st w → d ∈ owned_fds st → is_Some (fds w !! d).
Proof.
  destruct st; cbn [local_ok owned_fds]; intros Hok Hd;
    try (by apply not_elem_of_empty in Hd); set_unfold; naive_solver.
Qed.

Lemma local_ok_frame J obj flag st w w' :
  local_ok' J obj flag st w →
  (∀ x, x ∈ owned_paths st → fs w' !! x = fs w !! x) →
  (∀ d, d ∈ owned_fds st → fds w' !! d = fds w !! d) →
  local_ok' J obj flag st w'.
Proof.
  destruct st; cbn [local_ok owned_paths owned_fds]; unfold holds_payload; intros Hok Hfs Hfds;
    rewrite ?Hfs, ?Hfds by set_solver; try done.
Qed.

Lemma code_done obj flag st c : code obj flag st = Done c → st = Finished c.
Proof. destruct st; try discriminate. by intros [= ->]. Qed.

Lemma sys_inv_init past calls w : sys_inv' past calls (spawn_all calls w).
Proof.
  exists (replicate (List.length calls) AtAlloc1). cbn.
  split_and!; try done.
  - by rewrite length_fmap.
  - by rewrite length_replicate.
  - intros i call st Hc Hst. apply lookup_replicate in Hst as [-> _].
    rewrite list_lookup_fmap, Hc. done.
  - intros i j sti stj _ Hi _. apply lookup_replicate in Hi as [-> _]. set_solver.
Qed.

Lemma sys_inv_mono past past' calls s :
  (∀ j r, r ∈ past j → r ∈ past' j) → sys_inv' past calls s → sys_inv' past' calls s.
Proof.
  intros Hsub (stages & Hlt & Hls & Hth & ? & ? & ? & ?). exists stages.
  split_and!; [done|done| |done..].
  intros i call st Hcall Hst. destruct (Hth i call st Hcall Hst) as (? & Hok & ?).
  split_and!; [done| |done]. eapply local_ok_mono; [apply Hsub|done].
Qed.

Lemma held_cons_ne (tr : list (nat * label)) i j lab :
  j ≠ i → held ((i, lab) :: tr) j = held tr j.
Proof. intros Hne. cbn [held]. by rewrite decide_False. Qed.

Lemma held_cons_eq (tr : list (nat * label)) i lab :
  held ((i, lab) :: tr) i =
    match lab with
    | Allocated p => held tr i ∪ {[ p ]}
    | Released p => held tr i ∖ {[ p ]}
    | Silent => held tr i
    end.
Proof. cbn [held]. by rewrite decide_True. Qed.

Lemma step_record_self i s m :
  threads s !! i = Some m → step_record' i s i = next_record' m (world s).
Proof.
  intros Hm. unfold step_record. rewrite decide_True by done.
  by destruct (threads s !! i) as [m'|]; simplify_eq.
Qed.

Lemma sys_inv_step past calls s i :
  sys_inv' past calls s →
  sys_inv' (λ j, (past j ++ step_record' i s j)%list) calls (step_thread' i s).
Proof.
  intros (stages & Hlt & Hls & Hth & Hheld & Hdisj & Hfds & Hcf).
  unfold step_thread. destruct (threads s !! i) as [m|] eqn:Hm; last first.
  { exists stages. split_and!; [done..| |done|done|done|done].
    intros j call st Hcall Hst. destruct (Hth j call st Hcall Hst) as (? & Hok & ?).
    split_and!; [done| |done]. eapply local_ok_mono; [|exact Hok].
    intros r Hr. apply elem_of_app. by left. }
  assert (i < List.length calls)%nat as Hi by (rewrite <- Hlt; by eapply lookup_lt_Some).
  destruct (lookup_lt_is_Some_2 calls i Hi) as [call Hcall].
  destruct (lookup_lt_is_Some_2 stages i) as [st Hst]; [by rewrite Hls|].
  destruct (Hth i call st Hcall Hst) as (Hprog & Hok & Hown).
  pose proof (step_record_self i s m Hm) as Hself.
  pose proof (eq_trans (eq_sym Hm) Hprog) as Heq. injection Heq as ->. rewrite code_step.
  destruct (advance' call.1 call.2 st (world s)) as [[st' w'] lab] eqn:Hadv.
  destruct (advance_ok (past i) (past i ++ step_record' i s i)%list _ _ _ _ _ _ _
              ltac:(intros r Hr; apply elem_of_app; by left)
              ltac:(intros r Hr; apply elem_of_app; right; by rewrite Hself)
              Hok Hadv)
    as (Hok' & Hframe & Hkeep & Hlab & Hfdframe & Hfdnew).
  assert (∀ j x, j ≠ i → x ∈ held (trace s) j →
            (x ∉ owned_paths st) ∧ (lab ≠ Allocated x) ∧ (lab ≠ Released x)) as Hother.
  { intros j x Hne Hx. assert (x ∉ held (trace s) i) as Hxi.
    { intros Hxi. by apply (Hdisj j i Hne x). }
    split_and!.
    - intros Hxo. apply Hxi, Hown, Hxo.
    - intros ->. destruct Hlab as (Hnone & _). destruct (Hheld j x Hx) as [v Hv]. congruence.
    - intros ->. destruct Hlab as (Hin & _). apply Hxi, Hown, Hin. }
  exists (<[i := st']> stages). cbn [threads world trace].
  split_and!.
  - by rewrite length_insert.
  - by rewrite length_insert.
  - intros j call_j st_j Hcj Hsj. destruct (decide (j = i)) as [->|Hne].
    + rewrite list_lookup_insert_eq in Hsj by (by rewrite Hls).
      injection Hsj as <-. rewrite Hcall in Hcj. injection Hcj as <-.
      rewrite list_lookup_insert_eq by (by rewrite Hlt). split_and!; [done..|].
      rewrite held_cons_eq. destruct lab; set_solver.
    + rewrite list_lookup_insert_ne in Hsj by done.
      rewrite list_lookup_insert_ne by done. rewrite held_cons_ne by done.
      destruct (Hth j call_j st_j Hcj Hsj) as (Hpj & Hokj & Hownj). split_and!; [done| |done].
      eapply local_ok_mono; [intros r Hr; apply elem_of_app; left; exact Hr|].
      eapply local_ok_frame; [exact Hokj| |].
      * intros x Hx. destruct (Hother j x Hne (Hownj x Hx)) as (? & ? & ?). by apply Hframe.
      * intros d Hd. apply Hfdframe.
        -- intros Hdi. by apply (Hfds j i st_j st Hne Hsj Hst d).
        -- by eapply owned_fds_open.
  - intros j x Hx. destruct (decide (j = i)) as [->|Hne].
    + rewrite held_cons_eq in Hx. destruct lab as [p|p|].
      * apply elem_of_union in Hx as [Hx|Hx].
        -- apply Hkeep; [done|]. by eapply Hheld.
        -- apply elem_of_singleton in Hx as ->. by destruct Hlab as (_ & ? & _).
      * apply elem_of_difference in Hx as [Hx Hxp]. apply Hkeep; [|by eapply Hheld].
        intros [= ->]. apply Hxp. by apply elem_of_singleton.
      * apply Hkeep; [done|]. by eapply Hheld.
    + rewrite held_cons_ne in Hx by done.
      destruct (Hother j x Hne Hx) as (? & ? & ?). apply Hkeep; [done|]. by eapply Hheld.
  - assert (∀ j, j ≠ i → held ((i, lab) :: trace s) i ## held (trace s) j) as Hnew.
    { intros j Hne x Hxi Hxj. rewrite held_cons_eq in Hxi.
      destruct (Hother j x Hne Hxj) as (_ & Hna & _). destruct lab as [p|p|].
      - apply elem_of_union in Hxi as [Hxi|Hxi]; [by apply (Hdisj j i Hne x)|].
        apply elem_of_singleton in Hxi as ->. done.
      - apply elem_of_difference in Hxi as [Hxi _]. by apply (Hdisj j i Hne x).
      - by apply (Hdisj j i Hne x). }
    intros a b Hab. destruct (decide (a = i)) as [->|Hai]; destruct (decide (b = i)) as [->|Hbi].
    + done.
    + rewrite (held_cons_ne _ _ b) by done. by apply Hnew.
    + rewrite (held_cons_ne _ _ a) by done. symmetry. by apply Hnew.
    + rewrite !held_cons_ne by done. by apply Hdisj.
  - assert (∀ j stj, j ≠ i → stages !! j = Some stj → owned_fds st' ## owned_fds stj) as Hnew.
    { intros j stj Hne Hsj d Hd Hdj. destruct (Hfdnew d Hd) as [Hdi|Hnone].
      - by apply (Hfds j i stj st Hne Hsj Hst d).
      - assert (j < List.length calls)%nat as Hj by (rewrite <- Hls; by eapply lookup_lt_Some).
        destruct (lookup_lt_is_Some_2 calls j Hj) as [call_j Hcj].
        destruct (Hth j call_j stj Hcj Hsj) as (_ & Hokj & _).
        destruct (owned_fds_open _ _ _ _ _ d Hokj Hdj) as [v Hv]. congruence. }
    intros a b sta stb Hab Ha Hb.
    destruct (decide (a = i)) as [->|Hai]; destruct (decide (b = i)) as [->|Hbi].
    + done.
    + rewrite list_lookup_insert_eq in Ha by (by rewrite Hls). injection Ha as <-.
      rewrite list_lookup_insert_ne in Hb by done. by eapply Hnew.
    + rewrite list_lookup_insert_eq in Hb by (by rewrite Hls). injection Hb as <-.
      rewrite list_lookup_insert_ne in Ha by done. symmetry. by eapply Hnew.
    + rewrite list_lookup_insert_ne in Ha, Hb by done. by apply (Hfds a b sta stb).
  - cbn [collision_free]. destruct lab as [p|p|]; [|done..]. split; [|done].
    intros j Hp. destruct (Hheld j p Hp) as [v Hv]. destruct Hlab as (Hnone & _). congruence.
Qed.

Lemma sys_inv_run past calls schedule s :
  sys_inv' past calls s →
  sys_inv' (λ j, (past j ++ journal' schedule s j)%list) calls (run_threads' schedule s).
Proof.
  revert past s. induction schedule as [|i rest IH]; intros past s Hs.
  { eapply sys_inv_mono; [|exact Hs]. intros j r Hr. apply elem_of_app. by left. }
  cbn [run_threads foldl journal].
  eapply sys_inv_mono; [|apply IH, sys_inv_step, Hs].
  intros j r Hr. cbn beta in Hr. by rewrite <- (assoc_L (++)) in Hr.
Qed.

Lemma step_thread_self s i obj flag st st' w' lab :
  threads s !! i = Some (code obj flag st) →
  advance' obj flag st (world s) = (st', w', lab) →
  step_thread' i s =
    mkSystem (<[i := code obj flag st']> (threads s)) w' ((i, lab) :: trace s).
Proof.
  intros Hth Hadv. unfold step_thread.
  destruct (threads s !! i) as [m|] eqn:Hm; [|done]. injection Hth as ->.
  by rewrite code_step, Hadv.
Qed.

Lemma step_thread_idle s i : threads s !! i = None → step_thread' i s = s.
Proof. intros Hth. unfold step_thread. by destruct (threads s !! i). Qed.

Lemma step_thread_other s i j :
  j ≠ i →
  threads (step_thread' j s) !! i = threads s !! i ∧
  held (trace (step_thread' j s)) i = held (trace s) i.
Proof.
  intros Hne. unfold step_thread. destruct (threads s !! j) as [m|]; [|done].
  destruct (step_prog' m (world s)) as [[m' w'] lab]. cbn [threads trace].
  by rewrite list_lookup_insert_ne, held_cons_ne.
Qed.

(** *** What a journal does not hold *)

Lemma no_raise_contained J : no_raise J → contained J.
Proof. intros Hno r Hr _. by apply Hno. Qed.

Lemma no_raise_snoc J r : no_raise J → raised r = None → no_raise (J ++ [r]).
Proof.
  intros Hno Hr r' [Hin|Hin%list_elem_of_singleton]%elem_of_app; [by apply Hno|by subst].
Qed.

Lemma contained_snoc J r :
  contained J → (outside_try r = true → raised r = None) → contained (J ++ [r]).
Proof.
  intros Hc Hr r' [Hin|Hin%list_elem_of_singleton]%elem_of_app; [by apply Hc|by subst].
Qed.

Lemma contained_escaped J e : contained J → ¬ escaped J e.
Proof. intros Hc (r & Hin & Hout & He). by rewrite (Hc r Hin Hout) in He. Qed.

Lemma unspoilt_escape J r e :
  contained J → outside_try r = true → raised r = Some e → unspoilt (J ++ [r]) (Raise e).
Proof.
  intros Hc Hout He. split; [done|].
  intros e' (r' & [Hin|Hin%list_elem_of_singleton]%elem_of_app & Hout' & He').
  - by rewrite (Hc r' Hin Hout') in He'.
  - subst r'. congruence.
Qed.

Lemma settled_contained J c : settled J c → contained J.
Proof. destruct c as [[]|b|e]; cbn [settled]; [apply no_raise_contained|by intros [_ ?]|done]. Qed.

Lemma settled_snoc J r c : settled J c → raised r = None → settled (J ++ [r]) c.
Proof.
  destruct c as [[]|b|e]; cbn [settled].
  - apply no_raise_snoc.
  - intros [-> Hc] Hr. split; [done|]. by apply contained_snoc.
  - intros Hc Hr. by apply contained_snoc.
Qed.

Lemma settled_caught J flag e : contained J → settled J (caught flag e).
Proof.
  intros Hc. unfold caught, verdict. by destruct (is_Exception e), flag.
Qed.

Lemma unspoilt_final J c : settled J c → unspoilt J (final c).
Proof.
  intros Hs. split.
  - destruct c as [[]|b|e]; cbn [final settled] in *; [done| |done].
    destruct Hs as [-> _]. done.
  - intros e He. by apply contained_escaped in He; [|eapply settled_contained].
Qed.

(** One step of a thread adds its call to the journal. *)
Lemma advance_tidy J obj flag st w st' w' lab :
  tidy J st → advance' obj flag st w = (st', w', lab) →
  tidy (J ++ next_record' (code obj flag st) w) st'.
Proof.
  intros Ht Hadv. rewrite next_record_code.
  destruct st; try destruct c as [[]|?|?]; cbn [advance tidy] in *; try done;
    repeat case_match; simplify_eq; cbn [fst tidy after_with answer];
    rewrite ?app_nil_r;
    eauto using no_raise_snoc, contained_snoc, no_raise_contained, unspoilt_escape,
      settled_snoc, settled_caught, unspoilt_final.
  all: try (apply unspoilt_escape; [by eapply settled_contained|done..]).
  all: try (apply settled_caught, contained_snoc; [eauto using no_raise_contained|done]).
  all: destruct s as [e|[]]; cbn [answer];
    [apply contained_snoc; [by apply no_raise_contained|done]|by apply no_raise_snoc].
Qed.

Lemma step_record_other i j s : i ≠ j → step_record' i s j = [].
Proof. intros Hne. unfold step_record. by rewrite decide_False. Qed.

(** The journal of a thread along a run: whatever the others do in
    between, it holds the calls of the thread and nothing else. *)
Lemma tidy_run obj flag i schedule s st J :
  threads s !! i = Some (code obj flag st) → tidy J st →
  ∃ st', threads (run_threads' schedule s) !! i = Some (code obj flag st') ∧
         tidy (J ++ journal' schedule s i) st'.
Proof.
  revert s st J. induction schedule as [|j rest IH]; intros s st J Hth Ht.
  { exists st. cbn [journal]. by rewrite app_nil_r. }
  cbn [run_threads foldl journal]. rewrite (assoc_L (++)).
  destruct (decide (j = i)) as [->|Hne].
  - rewrite (step_record_self i s _ Hth).
    destruct (advance' obj flag st (world s)) as [[st1 w1] lab] eqn:Hadv.
    apply (IH (step_thread' i s) st1).
    + rewrite (step_thread_self _ _ _ _ _ _ _ _ Hth Hadv). cbn [threads].
      apply list_lookup_insert_eq. by eapply lookup_lt_Some.
    + by eapply advance_tidy.
  - rewrite step_record_other, app_nil_r by done.
    destruct (step_thread_other s i j Hne) as [Hsame _].
    apply (IH _ st); [by rewrite Hsame|done].
Qed.

(** *** How far a journal decides the result *)

Lemma no_raise_failures J : no_raise J ↔ omap raised J = [].
Proof.
  split.
  - intros Hno. induction J as [|r J IH]; [done|]. cbn [omap list_omap].
    rewrite (Hno r) by left. apply IH. intros r' Hr'. apply Hno. by right.
  - intros Hnil r Hr. destruct (raised r) as [e|] eqn:He; [|done].
    assert (e ∈ omap raised J) as Hin by (apply list_elem_of_omap; eauto).
    rewrite Hnil in Hin. by apply elem_of_nil in Hin.
Qed.

Lemma escaped_failures J e :
  escaped J e ↔ e ∈ omap (λ r, if outside_try r then raised r else None) J.
Proof.
  rewrite list_elem_of_omap. unfold escaped.
  split; intros (r & Hin & H); exists r; (split; [done|]).
  - destruct H as [-> ->]. done.
  - by destruct (outside_try r).
Qed.

(** [True] is the result exactly when none of the thread's calls
    raised. *)
Lemma own_verdict_true J obj flag c :
  own_verdict' J obj flag c → (c = Return true ↔ no_raise J).
Proof.
  intros [Hg [Htrue _]]. split; [done|]. intros Hno.
  destruct Hg as [p q bytes w out _ Hin|p q bytes w rc out _ Hin _ _ _ _|e Ho|e He].
  - done.
  - by specialize (Hno _ Hin).
  - destruct Ho as [(X & op & w & Hin & _)|(bf & w & h & Hin & _)]; by specialize (Hno _ Hin).
  - destruct He as (r & Hin & _ & He). by rewrite (Hno r Hin) in He.
Qed.

(** An exception that one of the thread's calls outside the [try]
    block raised is the result. *)
Lemma own_verdict_escaped J obj flag c e :
  own_verdict' J obj flag c → escaped J e → c = Raise e.
Proof. intros [_ [_ Hesc]]. apply Hesc. Qed.


(** ** Several calls at once: what one thread does *)

Lemma advance_rank obj flag st w :
  (rank (advance' obj flag st w).1.1 ≤ pred (rank st))%nat.
Proof.
  destruct st; try destruct c as [[]|?|?]; cbn [advance rank];
    repeat case_match; cbn [fst snd rank after_with]; lia.
Qed.

Lemma advance_owned obj flag st w st' w' lab (names : gset path) :
  advance' obj flag st w = (st', w', lab) →
  names ⊆ owned_paths st ∨ (∃ e, st = Finished (Raise e)) →
  match lab with
  | Allocated p => names ∪ {[ p ]}
  | Released p => names ∖ {[ p ]}
  | Silent => names
  end ⊆ owned_paths st' ∨ (∃ e, st' = Finished (Raise e)).
Proof.
  intros Hadv [Hsub|[e ->]]; [|injection Hadv as <- <- <-; right; by eexists].
  destruct st; try destruct c as [[]|?|?]; cbn [advance] in Hadv;
    repeat case_match; simplify_eq; cbn [owned_paths after_with] in *;
    try (right; by eexists); left; set_solver.
Qed.

(** A thread on its own: whatever the others do in between, each of
    its steps takes it one program point further, and the names it holds
    are among those of its program point, unless an external call that
    the [finally] clause does not cover has failed. *)
Lemma thread_run obj flag i schedule s st :
  threads s !! i = Some (code obj flag st) →
  held (trace s) i ⊆ owned_paths st ∨ (∃ e, st = Finished (Raise e)) →
  ∃ st', threads (run_threads' schedule s) !! i = Some (code obj flag st') ∧
    (held (trace (run_threads' schedule s)) i ⊆ owned_paths st' ∨
     (∃ e, st' = Finished (Raise e))) ∧
    (rank st' ≤ rank st - List.length (filter (λ j, j = i) schedule))%nat.
Proof.
  revert s st. induction schedule as [|j rest IH]; intros s st Hth Hheld.
  { exists st. split_and!; [done..|cbn; lia]. }
  cbn [run_threads foldl]. destruct (decide (j = i)) as [->|Hne].
  - rewrite filter_cons_True by done. cbn [List.length].
    destruct (advance' obj flag st (world s)) as [[st1 w1] lab] eqn:Hadv.
    pose proof (advance_rank obj flag st (world s)) as Hrank. rewrite Hadv in Hrank.
    cbn [fst] in Hrank.
    destruct (IH (step_thread' i s) st1) as (st' & Hth' & Hheld' & Hrank').
    + rewrite (step_thread_self _ _ _ _ _ _ _ _ Hth Hadv). cbn [threads].
      apply list_lookup_insert_eq. by eapply lookup_lt_Some.
    + rewrite (step_thread_self _ _ _ _ _ _ _ _ Hth Hadv). cbn [trace].
      rewrite held_cons_eq. by eapply advance_owned.
    + exists st'. split_and!; [done..|lia].
  - rewrite filter_cons_False by done.
    destruct (step_thread_other s i j Hne) as [Hsame Hsame'].
    apply IH; [by rewrite Hsame|by rewrite Hsame'].
Qed.

Lemma idle_run i schedule s :
  threads s !! i = None →
  held (trace (run_threads' schedule s)) i = held (trace s) i.
Proof.
  revert s. induction schedule as [|j rest IH]; intros s Hth; [done|].
  cbn [run_threads foldl]. destruct (decide (j = i)) as [->|Hne].
  - rewrite step_thread_idle by done. by apply IH.
  - destruct (step_thread_other s i j Hne) as [Hsame Hsame'].
    rewrite <- Hsame'. apply IH. by rewrite Hsame.
Qed.

Lemma thread_step past calls s i m :
  sys_inv' past calls s → threads s !! i = Some m →
  ∃ call st st' w' lab,
    calls !! i = Some call ∧
    owned_paths st ⊆ held (trace s) i ∧
    step_ok' (past i ++ step_record' i s i)%list call.1 call.2 st (world s) st' w' lab ∧
    step_thread' i s =
      mkSystem (<[i := code call.1 call.2 st']> (threads s)) w' ((i, lab) :: trace s).
Proof.
  intros (stages & Hlt & Hls & Hth & _) Hm.
  assert (i < List.length calls)%nat as Hi by (rewrite <- Hlt; by eapply lookup_lt_Some).
  destruct (lookup_lt_is_Some_2 calls i Hi) as [call Hcall].
  destruct (lookup_lt_is_Some_2 stages i) as [st Hst]; [by rewrite Hls|].
  destruct (Hth i call st Hcall Hst) as (Hprog & Hok & Hown).
  destruct (advance' call.1 call.2 st (world s)) as [[st' w'] lab] eqn:Hadv.
  exists call, st, st', w', lab.
  split_and!; [done|done| |by eapply step_thread_self].
  eapply advance_ok; [| |exact Hok|exact Hadv].
  - intros r Hr. apply elem_of_app. by left.
  - intros r Hr. apply elem_of_app. right. by rewrite (step_record_self i s _ Hprog).
Qed.

Lemma files_accounted_step past calls w0 s i :
  sys_inv' past calls s → files_accounted w0 s → files_accounted w0 (step_thread' i s).
Proof.
  intros Hinv [Hold Hnew].
  destruct (threads s !! i) as [m|] eqn:Hm; [|by rewrite step_thread_idle].
  destruct (thread_step past calls s i m Hinv Hm)
    as (call & st & st' & w' & lab & _ & Hown & Hstep & ->).
  destruct Hstep as (_ & Hframe & _ & Hlab & _).
  assert (∀ x, x ∈ held (trace s) i → lab ≠ Released x →
            x ∈ held ((i, lab) :: trace s) i) as Hstay.
  { intros x Hx Hr. rewrite held_cons_eq. destruct lab as [p|p|]; [set_solver| |done].
    apply elem_of_difference. split; [done|]. intros ->%elem_of_singleton. done. }
  split; cbn [world trace].
  - intros x c Hx. destruct (Hold x c Hx) as [Hxw Hfree]. split.
    + rewrite Hframe; [done| |].
      * intros Hxo. by apply (Hfree i), Hown.
      * intros ->. destruct Hlab as (Hnone & _). congruence.
    + intros j. destruct (decide (j = i)) as [->|Hne].
      * rewrite held_cons_eq. destruct lab as [p|p|].
        -- intros [Hin|Hin]%elem_of_union; [by apply (Hfree i)|].
           apply elem_of_singleton in Hin as ->. destruct Hlab as (Hnone & _). congruence.
        -- intros [Hin _]%elem_of_difference. by apply (Hfree i).
        -- apply Hfree.
      * rewrite held_cons_ne by done. apply Hfree.
  - intros x Hx.
    assert (lab ≠ Released x) as Hrel.
    { intros ->. destruct Hlab as (_ & Hnone & _). rewrite Hnone in Hx. by destruct Hx. }
    destruct (decide (lab = Allocated x)) as [->|Hal].
    { right. exists i. rewrite held_cons_eq. set_solver. }
    destruct (decide (x ∈ owned_paths st)) as [Hxo|Hxo].
    { right. exists i. apply Hstay; [by apply Hown|done]. }
    rewrite Hframe in Hx by done.
    destruct (Hnew x Hx) as [?|[j Hj]]; [by left|right].
    exists j. destruct (decide (j = i)) as [->|Hne].
    + by apply Hstay.
    + by rewrite held_cons_ne.
Qed.

Lemma files_accounted_run past calls w0 schedule s :
  sys_inv' past calls s → files_accounted w0 s →
  files_accounted w0 (run_threads' schedule s).
Proof.
  revert past s. induction schedule as [|i rest IH]; intros past s Hs Hf; [done|].
  cbn. eapply IH; [by apply sys_inv_step|by eapply files_accounted_step].
Qed.

Lemma files_accounted_init calls w : files_accounted w (spawn_all calls w).
Proof.
  split; cbn.
  - intros x c Hx. split; [done|]. intros i. apply not_elem_of_empty.
  - intros x Hx. by left.
Qed.


(** X12.  A call makes at most thirteen external calls: a thread that has
    been scheduled thirteen times has finished, whatever the other
    threads did in between.  No call waits for another one. *)
Theorem call_finishes_within_13_steps calls schedule w i call :
  calls !! i = Some call →
  (13 ≤ List.length (filter (λ j, j = i) schedule))%nat →
  ∃ c, threads (run_threads' schedule (spawn_all calls w)) !! i = Some (Done c).
Proof.
  intros Hcall Hsteps.
  destruct (thread_run call.1 call.2 i schedule (spawn_all calls w) AtAlloc1)
    as (st' & Hth & _ & Hrank).
  { cbn. by rewrite list_lookup_fmap, Hcall. }
  { left. cbn. set_solver. }
  cbn [rank] in Hrank. destruct st'; cbn [rank] in Hrank; try lia. by exists c.
Qed.

(** X13.  A call that has returned a boolean holds none of the names it was
    given: it has unlinked both, also when its steps were interleaved
    with those of other calls. *)
Theorem returned_call_holds_no_name calls schedule w i obj flag b :
  let s := run_threads' schedule (spawn_all calls w) in
  calls !! i = Some (obj, flag) →
  threads s !! i = Some (Done (Return b)) →
  held (trace s) i = ∅.
Proof.
  intros s Hcall Hdone. subst s.
  destruct (thread_run obj flag i schedule (spawn_all calls w) AtAlloc1)
    as (st' & Hth & Hheld & _).
  { cbn. by rewrite list_lookup_fmap, Hcall. }
  { left. cbn. set_solver. }
  pose proof (eq_trans (eq_sym Hdone) Hth) as Heq. injection Heq as Hc. symmetry in Hc.
  apply code_done in Hc as ->. destruct Hheld as [Hsub|[e He]]; [|done].
  cbn [owned_paths] in Hsub. set_solver.
Qed.


End SerializableFacts.

(** ** is_serializable on the concrete platform *)

Example loader_script :
  format template "/tmp/tmpa1b2c3d4" =
"
import cloudpickle

with open('/tmp/tmpa1b2c3d4', 'rb') as z76123:
    res = cloudpickle.load(z76123)
".
Proof. reflexivity. Qed.

(** A value that unpickles in the child, one whose unpickling fails
    there, and one that cannot be pickled at all. *)
Example deployable :
  (run Demo.dumps Demo.shell (is_serializable 1%positive false) Demo.w0).1 = Return true.
Proof. vm_compute. reflexivity. Qed.

Example not_deployable :
  (run Demo.dumps Demo.shell (is_serializable 2%positive false) Demo.w0).1 = Return false ∧
  (run Demo.dumps Demo.shell (is_serializable 2%positive true) Demo.w0).1 =
    Raise (CalledProcessError 1 "python /tmp/b"
             "Traceback (most recent call last): AttributeError").
Proof. split; vm_compute; reflexivity. Qed.

Example not_picklable :
  (run Demo.dumps Demo.shell (is_serializable 4%positive false) Demo.w0).1 = Return false ∧
  (run Demo.dumps Demo.shell (is_serializable 4%positive true) Demo.w0).1 =
    Raise (Exception "PicklingError" "cannot pickle").
Proof. split; vm_compute; reflexivity. Qed.

(** The child exits with zero and has removed the payload file:
    [os.unlink(binary_file)] raises, the exception reaches the caller
    although [raise_on_error] is false, and the script file is left. *)
Example payload_gone :
  let r := run Demo.dumps Demo.shell (is_serializable 1%positive false) Demo.w_unlink_fails in
  r.1 = Raise (Exception "FileNotFoundError" "/tmp/a") ∧
  log r.2 = [Raised (Exception "FileNotFoundError" "/tmp/a"); Exited "python /tmp/b" 0 ""] ∧
  fs r.2 !! "/tmp/b" = Some (format template "/tmp/a").
Proof. vm_compute. done. Qed.

Lemma quiet_platform (n : nat) : fault_at Demo.w0 n = None.
Proof. by destruct n. Qed.

Lemma child_of_bad :
  child_exits Demo.dumps Demo.shell 2%positive "/tmp/a" "/tmp/b" Demo.w0 1
    "Traceback (most recent call last): AttributeError".
Proof.
  split; [intros n _; apply quiet_platform|].
  exists Demo.heap0, "bad". split; vm_compute; reflexivity.
Qed.

Lemma is_serializable_classifies_exit_code_witness :
  mkstemp Demo.w0 = (inr (0%nat, "/tmp/a"), Demo.w1) ∧
  mkstemp Demo.w1 = (inr (1%nat, "/tmp/b"), Demo.w2) ∧
  let r := run Demo.dumps Demo.shell (is_serializable 2%positive false) Demo.w0 in
  r.1 = Return false ∧
  log r.2 = [Raised (CalledProcessError 1 "python /tmp/b"
                       "Traceback (most recent call last): AttributeError");
             Exited "python /tmp/b" 1 "Traceback (most recent call last): AttributeError"].
Proof.
  split; [vm_compute; reflexivity|]. split; [vm_compute; reflexivity|].
  destruct (is_serializable_classifies_exit_code Demo.dumps Demo.shell 2%positive
              Demo.w0 0%nat "/tmp/a" Demo.w1 1%nat "/tmp/b" Demo.w2) as [_ Hfalse];
    [vm_compute; reflexivity..|].
  destruct (Hfalse 1 _ child_of_bad) as (Hr & Hlog & _); [done|].
  split; [exact Hr|exact Hlog].
Defined.

(** C1, as stated, fails: the child exits with zero and the call does
    not return [True], because [os.unlink] fails in the [finally]
    clause. *)
Lemma exit_code_counterexample :
  ¬ classifies Demo.dumps Demo.shell 1%positive Demo.w_unlink_fails.
Proof.
  intros Hclass. specialize (Hclass "python /tmp/b" 0 "").
  assert (new_events Demo.w_unlink_fails
            (run Demo.dumps Demo.shell (is_serializable 1%positive false)
               Demo.w_unlink_fails).2
          = [Raised (Exception "FileNotFoundError" "/tmp/a"); Exited "python /tmp/b" 0 ""])
    as Hnew by (vm_compute; reflexivity).
  assert ((run Demo.dumps Demo.shell (is_serializable 1%positive false)
             Demo.w_unlink_fails).1
          = Raise (Exception "FileNotFoundError" "/tmp/a"))
    as Hr by (vm_compute; reflexivity).
  rewrite Hnew, Hr in Hclass. specialize (Hclass ltac:(right; left)).
  discriminate Hclass.
Qed.



Lemma open_script_fails :
  try_block_fails Demo.dumps 1%positive Demo.w_open_fails 4
    (Exception "OSError" "No space left on device").
Proof.
  split_and!; [lia|lia| |reflexivity| |reflexivity|reflexivity].
  - intros j Hj. do 4 (destruct j as [|j]; [reflexivity|]). lia.
  - intros _. exists Demo.heap0, "ok". vm_compute; reflexivity.
Qed.



Lemma is_serializable_raises_verbatim_witness :
  mkstemp Demo.w0 = (inr (0%nat, "/tmp/a"), Demo.w1) ∧
  mkstemp Demo.w1 = (inr (1%nat, "/tmp/b"), Demo.w2) ∧
  let r := run Demo.dumps Demo.shell (is_serializable 2%positive true) Demo.w0 in
  r.1 = Raise (CalledProcessError 1 "python /tmp/b"
                 "Traceback (most recent call last): AttributeError") ∧
  output_of (CalledProcessError 1 "python /tmp/b"
               "Traceback (most recent call last): AttributeError")
    = Some "Traceback (most recent call last): AttributeError".
Proof.
  split; [vm_compute; reflexivity|]. split; [vm_compute; reflexivity|].
  destruct (is_serializable_raises_verbatim Demo.dumps Demo.shell 2%positive
              Demo.w0 0%nat "/tmp/a" Demo.w1 1%nat "/tmp/b" Demo.w2) as [Hchild _];
    [vm_compute; reflexivity..|].
  destruct (Hchild 1 _ child_of_bad) as (Hr & Hout & _); [done|].
  split; [exact Hr|exact Hout].
Defined.

(** C4, as stated, fails: a child that leaves through [sys.exit(1)]
    prints nothing, and the [CalledProcessError] raised for it has an
    empty [output]. *)
Lemma diagnostics_counterexample :
  (run Demo.dumps Demo.shell (is_serializable 3%positive true) Demo.w0).1
    = Raise (CalledProcessError 1 "python /tmp/b" "") ∧
  ¬ raises_informative Demo.dumps Demo.shell 3%positive Demo.w0.
Proof.
  split; [vm_compute; reflexivity|].
  intros (e & He & out & Hout & Hne). vm_compute in He. injection He as <-.
  simpl in Hout. by injection Hout as <-.
Qed.




Lemma second_allocation_failure_leaves_payload_file_witness :
  mkstemp Demo.w_second_alloc_fails = (inr (0%nat, "/tmp/a"), Demo.w1_second_alloc_fails) ∧
  mkstemp Demo.w1_second_alloc_fails
    = (inl (Exception "OSError" "Too many open files"), Demo.w2_second_alloc_fails) ∧
  let r := run Demo.dumps Demo.shell (is_serializable 1%positive false)
             Demo.w_second_alloc_fails in
  r.1 = Raise (Exception "OSError" "Too many open files") ∧
  fs Demo.w_second_alloc_fails !! "/tmp/a" = None ∧ fs r.2 !! "/tmp/a" = Some "".
Proof.
  split; [vm_compute; reflexivity|]. split; [vm_compute; reflexivity|].
  apply (second_allocation_failure_leaves_payload_file Demo.dumps Demo.shell 1%positive false
           Demo.w_second_alloc_fails 0%nat "/tmp/a" Demo.w1_second_alloc_fails
           (Exception "OSError" "Too many open files") Demo.w2_second_alloc_fails);
    vm_compute; reflexivity.
Defined.


Lemma first_allocation_failure_leaves_nothing_witness :
  mkstemp Demo.w_first_alloc_fails
    = (inl (Exception "OSError" "No space left on device"), Demo.w1_first_alloc_fails) ∧
  let r := run Demo.dumps Demo.shell (is_serializable 1%positive false)
             Demo.w_first_alloc_fails in
  r.1 = Raise (Exception "OSError" "No space left on device") ∧
  fs r.2 = fs Demo.w_first_alloc_fails ∧ fds r.2 = fds Demo.w_first_alloc_fails ∧
  heap r.2 = heap Demo.w_first_alloc_fails ∧
  exits (log r.2) = exits (log Demo.w_first_alloc_fails).
Proof.
  split; [vm_compute; reflexivity|].
  apply (first_allocation_failure_leaves_nothing Demo.dumps Demo.shell 1%positive false
           Demo.w_first_alloc_fails (Exception "OSError" "No space left on device")
           Demo.w1_first_alloc_fails).
  vm_compute; reflexivity.
Defined.

Lemma second_allocation_failure_leaves_descriptor_open_witness :
  mkstemp Demo.w_second_alloc_fails = (inr (0%nat, "/tmp/a"), Demo.w1_second_alloc_fails) ∧
  mkstemp Demo.w1_second_alloc_fails
    = (inl (Exception "OSError" "Too many open files"), Demo.w2_second_alloc_fails) ∧
  fds Demo.w_second_alloc_fails !! 0%nat = None ∧
  fds (run Demo.dumps Demo.shell (is_serializable 1%positive true)
         Demo.w_second_alloc_fails).2 !! 0%nat = Some "/tmp/a".
Proof.
  split; [vm_compute; reflexivity|]. split; [vm_compute; reflexivity|].
  apply (second_allocation_failure_leaves_descriptor_open Demo.dumps Demo.shell 1%positive
           true Demo.w_second_alloc_fails 0%nat "/tmp/a" Demo.w1_second_alloc_fails
           (Exception "OSError" "Too many open files") Demo.w2_second_alloc_fails);
    vm_compute; reflexivity.
Defined.


Lemma is_serializable_decided_by_child_witness :
  mkstemp Demo.w_busy = (inr (0%nat, "/tmp/b"), Demo.w1_busy) ∧
  mkstemp Demo.w1_busy = (inr (1%nat, "/tmp/c"), Demo.w2_busy) ∧
  (∀ e, Some e ∉ faults Demo.w_busy) ∧
  Demo.dumps (heap Demo.w_busy) 2%positive = (Demo.heap0, inr "bad") ∧
  Demo.shell (<["/tmp/c" := format template "/tmp/b"]> (<["/tmp/b" := "bad"]> (fs Demo.w_busy)))
    "python /tmp/c" = (1, "Traceback (most recent call last): AttributeError") ∧
  (run Demo.dumps Demo.shell (is_serializable 2%positive true) Demo.w_busy).1 =
    Raise (CalledProcessError 1 "python /tmp/c"
             "Traceback (most recent call last): AttributeError").
Proof.
  assert (∀ e, Some e ∉ faults Demo.w_busy) as Hfaults.
  { intros e Hin. by apply elem_of_nil in Hin. }
  split; [vm_compute; reflexivity|]. split; [vm_compute; reflexivity|].
  split; [exact Hfaults|]. split; [vm_compute; reflexivity|].
  split; [vm_compute; reflexivity|].
  apply (is_serializable_decided_by_child Demo.dumps Demo.shell 2%positive true
           Demo.w_busy 0%nat "/tmp/b" Demo.w1_busy 1%nat "/tmp/c" Demo.w2_busy
           Demo.heap0 "bad" 1 "Traceback (most recent call last): AttributeError");
    [vm_compute; reflexivity|vm_compute; reflexivity|exact Hfaults|
     vm_compute; reflexivity|vm_compute; reflexivity].
Defined.

Lemma encoding_failure_is_reported_witness :
  mkstemp Demo.w0 = (inr (0%nat, "/tmp/a"), Demo.w1) ∧
  mkstemp Demo.w1 = (inr (1%nat, "/tmp/b"), Demo.w2) ∧
  (∀ e, Some e ∉ faults Demo.w0) ∧
  Demo.dumps (heap Demo.w0) 5%positive
    = (Demo.heap0, inl (BaseException "KeyboardInterrupt")) ∧
  let r := run Demo.dumps Demo.shell (is_serializable 5%positive false) Demo.w0 in
  r.1 = caught false (BaseException "KeyboardInterrupt") ∧
  log r.2 = Raised (BaseException "KeyboardInterrupt") :: log Demo.w0.
Proof.
  assert (∀ e, Some e ∉ faults Demo.w0) as Hfaults.
  { intros e Hin. by apply elem_of_nil in Hin. }
  split; [vm_compute; reflexivity|]. split; [vm_compute; reflexivity|].
  split; [exact Hfaults|]. split; [vm_compute; reflexivity|].
  apply (encoding_failure_is_reported Demo.dumps Demo.shell 5%positive false
           Demo.w0 0%nat "/tmp/a" Demo.w1 1%nat "/tmp/b" Demo.w2 Demo.heap0
           (BaseException "KeyboardInterrupt"));
    [vm_compute; reflexivity|vm_compute; reflexivity|exact Hfaults|vm_compute; reflexivity].
Defined.

(** ** raise_on_exception *)

Module ContextFlagFacts.
Import ContextFlag.

(** C9.  The block of [with raise_on_exception():] starts in a context
    where the flag reads [True] and every other key is as before; when
    the block is left, whether it fell through, returned or raised, the
    context is the one from before the statement, so the flag reads what
    it read before. *)
Theorem raise_on_exception_scoped {A : Type}
    (block : gmap string pyval → completion A * gmap string pyval)
    (ctx : gmap string pyval) :
  ∃ inside,
    flag inside = Some (PyBool true) ∧
    (∀ k, k ≠ "raise_on_exception" → inside !! k = ctx !! k) ∧
    (raise_on_exception block ctx).1 = (block inside).1 ∧
    (raise_on_exception block ctx).2 = ctx ∧
    flag (raise_on_exception block ctx).2 = flag ctx.
Proof.
  exists ({[ "raise_on_exception" := PyBool true ]} ∪ ctx).
  unfold raise_on_exception, with_, flag. simpl.
  destruct (block _) as [c ctx2]. simpl. split_and!; try done.
  - apply lookup_union_Some_l, lookup_singleton_eq.
  - intros k Hk. rewrite lookup_union_r; [done|]. by apply lookup_singleton_ne.
Qed.

End ContextFlagFacts.

(** ** make_return_failed_handler *)

Module ReturnFailedFacts.
Import ReturnFailed.
Section HandlerFacts.

Context {StateClass State : Type}.
Variable issubclass : StateClass → StateClass → bool.
Variable type_of : State → StateClass.
Variables Failed Retrying : StateClass.
Context `{Countable Task}.

#[local] Abbreviation tagged :=
  (λ s : State, isinstance issubclass type_of s [Failed; Retrying]).
#[local] Abbreviation handler :=
  (make_return_failed_handler issubclass type_of Failed Retrying (Task:=Task)).
Implicit Types (σ : gmap loc (gset Task)) (l : loc) (t : Task).

Lemma set_add_idempotent l t σ : set_add l t (set_add l t σ) = set_add l t σ.
Proof.
  unfold set_add. apply map_eq. intros k. destruct (decide (l = k)) as [->|Hne].
  - rewrite !lookup_alter_eq. destruct (σ !! k) as [s|]; simpl; [|done].
    f_equal. by rewrite <- (assoc_L (∪)), (idemp_L (∪)).
  - by rewrite !lookup_alter_ne.
Qed.

Lemma call_handler_saturated l (task_runner : TaskRunner) transitions σ :
  call_handler (handler l) task_runner transitions (set_add l (task task_runner) σ)
  = set_add l (task task_runner) σ.
Proof.
  induction transitions as [|[o n] rest IH]; [done|].
  cbn [call_handler]. unfold make_return_failed_handler at 2. cbn [snd].
  destruct (tagged n); [|apply IH]. rewrite set_add_idempotent. apply IH.
Qed.

(** C7.  The handler returns [new_state] as it received it, and calling
    it for any number of transitions of one work unit leaves the shared
    set as a single insertion would when one of the new states is
    [Failed] or [Retrying], and untouched otherwise. *)
Theorem handler_returns_new_state_and_is_idempotent
    l (task_runner : TaskRunner) old_state new_state σ transitions :
  (handler l task_runner old_state new_state σ).1 = new_state ∧
  call_handler (handler l) task_runner transitions σ =
    if existsb tagged (transitions.*2)
    then set_add l (task task_runner) σ
    else σ.
Proof.
  split; [done|].
  revert σ. induction transitions as [|[o n] rest IH]; intros σ; [done|].
  cbn [call_handler fmap list_fmap existsb]. unfold make_return_failed_handler at 2.
  cbn [snd]. destruct (tagged n); cbn [orb].
  - apply call_handler_saturated.
  - apply IH.
Qed.

(** C8.  The handler adds the task of the runner to the caller's set
    exactly when the new state is an instance of [Failed] or of
    [Retrying]; for any other new state the store is left as it was.  No
    other reference of the store is touched. *)
Theorem handler_inserts_iff_failed_or_retrying
    l (task_runner : TaskRunner) old_state new_state σ (s : gset Task) :
  σ !! l = Some s →
  let σ1 := (handler l task_runner old_state new_state σ).2 in
  (tagged new_state = true → σ1 !! l = Some (s ∪ {[ task task_runner ]})) ∧
  (tagged new_state = false → σ1 = σ) ∧
  (∀ l', l' ≠ l → σ1 !! l' = σ !! l').
Proof.
  intros Hl σ1. subst σ1. unfold make_return_failed_handler. cbn [snd].
  destruct (isinstance _ _ new_state _) eqn:Htag; split_and!; try done.
  - intros _. unfold set_add. by rewrite lookup_alter_eq, Hl.
  - intros l' Hne. unfold set_add. by rewrite lookup_alter_ne.
Qed.

Lemma set_add_comm l t1 t2 σ :
  set_add l t1 (set_add l t2 σ) = set_add l t2 (set_add l t1 σ).
Proof.
  unfold set_add. apply map_eq. intros k. destruct (decide (l = k)) as [->|Hne].
  - rewrite !lookup_alter_eq. destruct (σ !! k) as [s|]; simpl; [|done].
    f_equal. set_solver.
  - by rewrite !lookup_alter_ne.
Qed.

Lemma handler_comm l (r1 r2 : TaskRunner) o1 n1 o2 n2 σ :
  (handler l r2 o2 n2 (handler l r1 o1 n1 σ).2).2 =
  (handler l r1 o1 n1 (handler l r2 o2 n2 σ).2).2.
Proof.
  unfold make_return_failed_handler. cbn [snd].
  destruct (tagged n1), (tagged n2); try done. apply set_add_comm.
Qed.

Lemma call_handlers_cons l (r : TaskRunner) o n rest σ :
  call_handlers (handler l) ((r, o, n) :: rest) σ =
  call_handlers (handler l) rest (handler l r o n σ).2.
Proof. reflexivity. Qed.

Lemma handler_store l (r : TaskRunner) o n σ (s : gset Task) :
  σ !! l = Some s →
  (handler l r o n σ).2 !! l = Some (if tagged n then s ∪ {[ task r ]} else s) ∧
  ∀ l', l' ≠ l → (handler l r o n σ).2 !! l' = σ !! l'.
Proof.
  intros Hl. unfold make_return_failed_handler. cbn [snd].
  destruct (isinstance _ _ n _); [|done]. unfold set_add. split.
  - by rewrite lookup_alter_eq, Hl.
  - intros l' Hne. by rewrite lookup_alter_ne.
Qed.

(** X15.  One handler shared by all the task runners of a run collects, in
    the caller's set, exactly the tasks that entered a [Failed] or
    [Retrying] state: the set ends with what it held before and the
    task of every runner whose new state was an instance of one of the
    two classes, and nothing else; no element is ever removed and no
    other object of the store is touched. *)
Theorem handlers_collect_failed_tasks
    l (transitions : list (TaskRunner * State * State)) σ (s : gset Task) :
  σ !! l = Some s →
  ∃ s', call_handlers (handler l) transitions σ !! l = Some s' ∧
    (∀ t, t ∈ s' ↔
       t ∈ s ∨ ∃ task_runner old_state new_state,
                 (task_runner, old_state, new_state) ∈ transitions ∧
                 task task_runner = t ∧ tagged new_state = true) ∧
    ∀ l', l' ≠ l → call_handlers (handler l) transitions σ !! l' = σ !! l'.
Proof.
  revert σ s. induction transitions as [|[[r o] n] rest IH]; intros σ s Hl.
  { exists s. split_and!; [exact Hl| |done]. intros t. split; [by left|].
    intros [?|(? & ? & ? & Hin & _)]; [done|]. by apply elem_of_nil in Hin. }
  rewrite call_handlers_cons.
  destruct (handler_store l r o n σ s Hl) as [Hl1 Hother1].
  destruct (IH _ _ Hl1) as (s' & Hs' & Hmem & Hother).
  exists s'. split_and!; [done| |].
  - intros t. rewrite Hmem. split.
    + intros [Hin|(r' & o' & n' & Hin & Ht & Hn)].
      * destruct (tagged n) eqn:Htag; [|by left].
        apply elem_of_union in Hin as [Hin|Hin%elem_of_singleton]; [by left|].
        right. exists r, o, n. split_and!; [apply elem_of_cons; by left|done|done].
      * right. exists r', o', n'. split_and!; [apply elem_of_cons; by right|done|done].
    + intros [Hin|(r' & o' & n' & Hin & Ht & Hn)].
      * left. destruct (tagged n); [|done]. apply elem_of_union. by left.
      * apply elem_of_cons in Hin as [Heq|Hin].
        -- injection Heq as -> -> ->. left. rewrite Hn, <- Ht.
           apply elem_of_union. right. by apply elem_of_singleton.
        -- right. by exists r', o', n'.
  - intros l' Hne. by rewrite Hother, Hother1.
Qed.

(** X16.  The set that a run leaves does not depend on the order in which
    the task runners reported their transitions. *)
Theorem handlers_order_irrelevant
    l (transitions transitions' : list (TaskRunner * State * State)) σ :
  transitions ≡ₚ transitions' →
  call_handlers (handler l) transitions σ = call_handlers (handler l) transitions' σ.
Proof.
  intros Hperm. revert σ.
  induction Hperm as [|[[r o] n] a b _ IH|[[r1 o1] n1] [[r2 o2] n2] rest|a b c _ IH1 _ IH2];
    intros σ.
  - done.
  - unfold call_handlers. cbn [foldl]. apply IH.
  - unfold call_handlers. cbn [foldl]. by rewrite handler_comm.
  - by rewrite IH1.
Qed.

End HandlerFacts.
End ReturnFailedFacts.

Lemma handler_inserts_iff_failed_or_retrying_witness :
  DemoStates.store0 !! 1%positive = Some ({[ "extract" ]} : gset string) ∧
  let runner := ReturnFailed.mkTaskRunner "load" in
  let new_state := DemoStates.mkState DemoStates.CTimedOut "took too long" in
  let tagged :=
    ReturnFailed.isinstance DemoStates.issubclass DemoStates.state_class_of new_state
      [DemoStates.CFailed; DemoStates.CRetrying] in
  let σ1 :=
    (ReturnFailed.make_return_failed_handler DemoStates.issubclass DemoStates.state_class_of
       DemoStates.CFailed DemoStates.CRetrying 1%positive runner
       (DemoStates.mkState DemoStates.CRunning "") new_state DemoStates.store0).2 in
  (tagged = true → σ1 !! 1%positive = Some ({[ "extract" ]} ∪ {[ "load" ]})) ∧
  (tagged = false → σ1 = DemoStates.store0) ∧
  (∀ l', l' ≠ 1%positive → σ1 !! l' = DemoStates.store0 !! l').
Proof.
  split; [vm_compute; reflexivity|].
  apply (ReturnFailedFacts.handler_inserts_iff_failed_or_retrying
           DemoStates.issubclass DemoStates.state_class_of DemoStates.CFailed
           DemoStates.CRetrying 1%positive (ReturnFailed.mkTaskRunner "load")
           (DemoStates.mkState DemoStates.CRunning "")
           (DemoStates.mkState DemoStates.CTimedOut "took too long")
           DemoStates.store0 {[ "extract" ]}).
  vm_compute; reflexivity.
Defined.

(** Two calls whose threads take turns: each gets its own two names and
    its own answer, and nothing is left behind. *)
Lemma two_calls_interleaved :
  let s := run_threads Demo.dumps Demo.shell Demo.round_robin
             (spawn_all Demo.two_calls Demo.w_two_calls) in
  threads s = [Done (Return true); Done (Return false)] ∧
  fs (world s) = ∅ ∧
  filter (λ x, x.2 ≠ Silent) (reverse (trace s)) =
    [(0, Allocated "/tmp/a"); (1, Allocated "/tmp/b");
     (0, Allocated "/tmp/c"); (1, Allocated "/tmp/d");
     (0, Released "/tmp/a"); (1, Released "/tmp/b");
     (0, Released "/tmp/c"); (1, Released "/tmp/d")]%nat.
Proof. vm_compute. done. Qed.


(** The journals of the two calls allow no other result: not [False]
    for the deployable object of the first one, and not [True] for the
    object of the second one, whose child fails. *)
Example two_calls_own_results :
  let s0 := spawn_all Demo.two_calls Demo.w_two_calls in
  ¬ own_verdict Demo.dumps Demo.shell
      (journal Demo.dumps Demo.shell Demo.round_robin s0 0) 1%positive false (Return false) ∧
  ¬ own_verdict Demo.dumps Demo.shell
      (journal Demo.dumps Demo.shell Demo.round_robin s0 1) 2%positive false (Return true).
Proof.
  split; intros Hv; apply own_verdict_true in Hv;
    rewrite no_raise_failures in Hv; vm_compute in Hv.
  - destruct Hv as [_ Hv]. by specialize (Hv eq_refl).
  - destruct Hv as [Hv _]. by specialize (Hv eq_refl).
Qed.

(** Nor does the journal of a call whose payload file is gone when the
    [finally] clause runs: the exception of [os.unlink] is its result,
    whatever the child did. *)
Example payload_gone_own_result :
  let J := journal Demo.dumps Demo.shell (replicate 13 0%nat)
             (spawn_all [(1%positive, false)] Demo.w_unlink_fails) 0 in
  ∀ c, own_verdict Demo.dumps Demo.shell J 1%positive false c →
       c = Raise (Exception "FileNotFoundError" "/tmp/a").
Proof.
  intros J c Hv. eapply own_verdict_escaped; [exact Hv|].
  apply escaped_failures. vm_compute. left.
Qed.

Lemma call_finishes_within_13_steps_witness :
  Demo.two_calls !! 0%nat = Some (1%positive, false) ∧
  (13 ≤ List.length (filter (λ j, j = 0%nat) Demo.round_robin))%nat ∧
  ∃ c, threads (run_threads Demo.dumps Demo.shell Demo.round_robin
                  (spawn_all Demo.two_calls Demo.w_two_calls)) !! 0%nat = Some (Done c).
Proof.
  assert (13 ≤ List.length (filter (λ j, j = 0%nat) Demo.round_robin))%nat as Hsteps.
  { vm_compute. lia. }
  split; [reflexivity|]. split; [exact Hsteps|].
  apply (call_finishes_within_13_steps Demo.dumps Demo.shell Demo.two_calls
           Demo.round_robin Demo.w_two_calls 0%nat (1%positive, false));
    [reflexivity|exact Hsteps].
Defined.

Lemma returned_call_holds_no_name_witness :
  let s := run_threads Demo.dumps Demo.shell Demo.round_robin
             (spawn_all Demo.two_calls Demo.w_two_calls) in
  Demo.two_calls !! 1%nat = Some (2%positive, false) ∧
  threads s !! 1%nat = Some (Done (Return false)) ∧
  held (trace s) 1%nat = ∅.
Proof.
  assert (threads (run_threads Demo.dumps Demo.shell Demo.round_robin
                     (spawn_all Demo.two_calls Demo.w_two_calls)) !! 1%nat
          = Some (Done (Return false))) as Hdone.
  { vm_compute. reflexivity. }
  split; [reflexivity|]. split; [exact Hdone|].
  apply (returned_call_holds_no_name Demo.dumps Demo.shell Demo.two_calls
           Demo.round_robin Demo.w_two_calls 1%nat 2%positive false false);
    [reflexivity|exact Hdone].
Defined.


Lemma handlers_collect_failed_tasks_witness :
  DemoStates.store0 !! 1%positive = Some ({[ "extract" ]} : gset string) ∧
  let handler :=
    ReturnFailed.make_return_failed_handler DemoStates.issubclass DemoStates.state_class_of
      DemoStates.CFailed DemoStates.CRetrying 1%positive in
  let transitions :=
    [(ReturnFailed.mkTaskRunner "load", DemoStates.mkState DemoStates.CRunning "",
      DemoStates.mkState DemoStates.CTimedOut "took too long");
     (ReturnFailed.mkTaskRunner "transform", DemoStates.mkState DemoStates.CRunning "",
      DemoStates.mkState DemoStates.CSuccess "");
     (ReturnFailed.mkTaskRunner "report", DemoStates.mkState DemoStates.CRunning "",
      DemoStates.mkState DemoStates.CRetrying "again")] in
  ∃ s', ReturnFailed.call_handlers handler transitions DemoStates.store0 !! 1%positive
          = Some s' ∧
    (∀ t, t ∈ s' ↔
       t ∈ ({[ "extract" ]} : gset string) ∨
       ∃ task_runner old_state new_state,
         (task_runner, old_state, new_state) ∈ transitions ∧
         ReturnFailed.task task_runner = t ∧
         ReturnFailed.isinstance DemoStates.issubclass DemoStates.state_class_of new_state
           [DemoStates.CFailed; DemoStates.CRetrying] = true) ∧
    ∀ l', l' ≠ 1%positive →
      ReturnFailed.call_handlers handler transitions DemoStates.store0 !! l'
        = DemoStates.store0 !! l'.
Proof.
  split; [vm_compute; reflexivity|].
  apply (ReturnFailedFacts.handlers_collect_failed_tasks
           DemoStates.issubclass DemoStates.state_class_of DemoStates.CFailed
           DemoStates.CRetrying 1%positive).
  vm_compute; reflexivity.
Defined.

Lemma handlers_order_irrelevant_witness :
  let handler :=
    ReturnFailed.make_return_failed_handler DemoStates.issubclass DemoStates.state_class_of
      DemoStates.CFailed DemoStates.CRetrying 1%positive in
  let first :=
    (ReturnFailed.mkTaskRunner "load", DemoStates.mkState DemoStates.CRunning "",
     DemoStates.mkState DemoStates.CFailed "no such file") in
  let second :=
    (ReturnFailed.mkTaskRunner "report", DemoStates.mkState DemoStates.CRunning "",
     DemoStates.mkState DemoStates.CRetrying "again") in
  [first; second] ≡ₚ [second; first] ∧
  ReturnFailed.call_handlers handler [first; second] DemoStates.store0 =
  ReturnFailed.call_handlers handler [second; first] DemoStates.store0.
Proof.
  split; [apply perm_swap|].
  apply (ReturnFailedFacts.handlers_order_irrelevant
           DemoStates.issubclass DemoStates.state_class_of DemoStates.CFailed
           DemoStates.CRetrying 1%positive).
  apply perm_swap.
Defined.

Lemma loader_script_names_payload_witness :
  format template "/tmp/tmpa1b2c3d4" = format template "/tmp/tmpa1b2c3d4" ∧
  "/tmp/tmpa1b2c3d4" = "/tmp/tmpa1b2c3d4".
Proof.
  split; [reflexivity|].
  apply (loader_script_names_payload "/tmp/tmpa1b2c3d4" "/tmp/tmpa1b2c3d4"). reflexivity.
Defined.
